(** * personal-website: section navigator and glyph-field canvas

    A shallow embedding of the two components of the site,
    [src/components/SectionObserver.tsx] (module [Navigator]) and
    [src/components/AsciiCanvas.tsx] (module [Canvas]), and the properties
    of their state machines.

    Conventions of the embedding.
    - The closure variables of an effect ([let activeIndex = 0] ...) are a
      record; the browser objects the handlers talk to (timers, the event
      target, the scroll requests, the class lists) are a second record;
      every handler is a function from state to state.
    - Pixel quantities handled by the navigator (wheel deltas, touch
      coordinates) are integers and its clock counts milliseconds;
      intersection ratios and random numbers are rationals; the
      quantities of the canvas that go through [Math.sin], [Math.exp] and
      [Math.hypot], time stamps included, are real numbers. *)

From Stdlib Require Import ZArith NArith QArith Qround List Ascii String Bool Lia Reals Lra.
From stdpp Require Import base list.
Import ListNotations.

Local Open Scope Z_scope.

(** ** SectionObserver.tsx *)

Module Navigator.

Definition SCROLL_LOCK_MS : N := 900.
Definition WHEEL_TRIGGER : Z := 80.
Definition TOUCH_TRIGGER : Z := 70.
Definition WHEEL_RESET_MS : N := 220.

Inductive Side := SideLeft | SideRight.

(** An element of the document: [node] is its identity (what [===]
    compares), the two [dataset] entries are [None] when the attribute is
    absent, [html] tells whether it is an [HTMLElement]. *)
Record Element := {
  node : nat;
  sectionId : option string;
  sectionSide : option string;
  html : bool
}.

(** The payload of the [sectionchange] event. *)
Record Detail := { id : string; side : Side }.

(** The two callbacks the component hands to [window.setTimeout]. *)
Inductive Callback := WheelResetCb | ReleaseCb.

Record Timer := { tid : nat; due : N; callback : Callback }.

(** The closure variables of the effect. *)
Record Nav := {
  activeIndex : Z;
  isAnimating : bool;
  wheelDelta : Z;
  wheelResetTimer : option nat;
  releaseTimer : option nat;
  touchStartY : option Z;
  activeSide : Side
}.

(** What the component reaches of the browser: the clock, its pending
    timers (oldest first), the [scrollIntoView] requests (section index,
    oldest first), the [is-active] class of each section, the events
    dispatched on [window] (oldest first), the number of
    [preventDefault] calls, and whether the frame callback of the mount is
    still pending. *)
Record Window := {
  now : N;
  nextTimer : nat;
  timers : list Timer;
  scrolled : list Z;
  isActiveClass : list bool;
  dispatched : list Detail;
  prevented : nat;
  rafPending : bool
}.

Record State := { nav : Nav; win : Window }.

(** *** Field updates *)

Definition set_activeIndex (v : Z) (n : Nav) : Nav :=
  {| activeIndex := v; isAnimating := isAnimating n;
     wheelDelta := wheelDelta n; wheelResetTimer := wheelResetTimer n;
     releaseTimer := releaseTimer n; touchStartY := touchStartY n;
     activeSide := activeSide n |}.

Definition set_isAnimating (v : bool) (n : Nav) : Nav :=
  {| activeIndex := activeIndex n; isAnimating := v;
     wheelDelta := wheelDelta n; wheelResetTimer := wheelResetTimer n;
     releaseTimer := releaseTimer n; touchStartY := touchStartY n;
     activeSide := activeSide n |}.

Definition set_wheelDelta (v : Z) (n : Nav) : Nav :=
  {| activeIndex := activeIndex n; isAnimating := isAnimating n;
     wheelDelta := v; wheelResetTimer := wheelResetTimer n;
     releaseTimer := releaseTimer n; touchStartY := touchStartY n;
     activeSide := activeSide n |}.

Definition set_wheelResetTimer (v : option nat) (n : Nav) : Nav :=
  {| activeIndex := activeIndex n; isAnimating := isAnimating n;
     wheelDelta := wheelDelta n; wheelResetTimer := v;
     releaseTimer := releaseTimer n; touchStartY := touchStartY n;
     activeSide := activeSide n |}.

Definition set_releaseTimer (v : option nat) (n : Nav) : Nav :=
  {| activeIndex := activeIndex n; isAnimating := isAnimating n;
     wheelDelta := wheelDelta n; wheelResetTimer := wheelResetTimer n;
     releaseTimer := v; touchStartY := touchStartY n;
     activeSide := activeSide n |}.

Definition set_touchStartY (v : option Z) (n : Nav) : Nav :=
  {| activeIndex := activeIndex n; isAnimating := isAnimating n;
     wheelDelta := wheelDelta n; wheelResetTimer := wheelResetTimer n;
     releaseTimer := releaseTimer n; touchStartY := v;
     activeSide := activeSide n |}.

Definition set_activeSide (v : Side) (n : Nav) : Nav :=
  {| activeIndex := activeIndex n; isAnimating := isAnimating n;
     wheelDelta := wheelDelta n; wheelResetTimer := wheelResetTimer n;
     releaseTimer := releaseTimer n; touchStartY := touchStartY n;
     activeSide := v |}.

Definition set_now (v : N) (w : Window) : Window :=
  {| now := v; nextTimer := nextTimer w; timers := timers w;
     scrolled := scrolled w; isActiveClass := isActiveClass w;
     dispatched := dispatched w; prevented := prevented w;
     rafPending := rafPending w |}.

Definition set_timers (next : nat) (v : list Timer) (w : Window) : Window :=
  {| now := now w; nextTimer := next; timers := v;
     scrolled := scrolled w; isActiveClass := isActiveClass w;
     dispatched := dispatched w; prevented := prevented w;
     rafPending := rafPending w |}.

Definition set_scrolled (v : list Z) (w : Window) : Window :=
  {| now := now w; nextTimer := nextTimer w; timers := timers w;
     scrolled := v; isActiveClass := isActiveClass w;
     dispatched := dispatched w; prevented := prevented w;
     rafPending := rafPending w |}.

Definition set_isActiveClass (v : list bool) (w : Window) : Window :=
  {| now := now w; nextTimer := nextTimer w; timers := timers w;
     scrolled := scrolled w; isActiveClass := v;
     dispatched := dispatched w; prevented := prevented w;
     rafPending := rafPending w |}.

Definition set_dispatched (v : list Detail) (w : Window) : Window :=
  {| now := now w; nextTimer := nextTimer w; timers := timers w;
     scrolled := scrolled w; isActiveClass := isActiveClass w;
     dispatched := v; prevented := prevented w;
     rafPending := rafPending w |}.

Definition set_prevented (v : nat) (w : Window) : Window :=
  {| now := now w; nextTimer := nextTimer w; timers := timers w;
     scrolled := scrolled w; isActiveClass := isActiveClass w;
     dispatched := dispatched w; prevented := v;
     rafPending := rafPending w |}.

Definition set_rafPending (v : bool) (w : Window) : Window :=
  {| now := now w; nextTimer := nextTimer w; timers := timers w;
     scrolled := scrolled w; isActiveClass := isActiveClass w;
     dispatched := dispatched w; prevented := prevented w;
     rafPending := v |}.

Definition on_nav (f : Nav -> Nav) (s : State) : State :=
  {| nav := f (nav s); win := win s |}.

Definition on_win (f : Window -> Window) (s : State) : State :=
  {| nav := nav s; win := f (win s) |}.

(** *** The browser's timers *)

(** [window.setTimeout(cb, ms)]: a fresh handle, the callback due [ms]
    milliseconds from now. *)
Definition setTimeout (cb : Callback) (ms : N) (w : Window) : nat * Window :=
  (nextTimer w,
   set_timers (S (nextTimer w))
     (timers w ++ [{| tid := nextTimer w; due := (now w + ms)%N; callback := cb |}])
     w).

(** [window.clearTimeout(handle)]. *)
Definition clearTimeout (handle : nat) (w : Window) : Window :=
  set_timers (nextTimer w)
    (List.filter (fun t => negb (Nat.eqb (tid t) handle)) (timers w)) w.

(** [event.preventDefault()]. *)
Definition preventDefault (s : State) : State :=
  on_win (fun w => set_prevented (S (prevented w)) w) s.

(** *** The handlers of the effect *)

Section Handlers.

(** [sections]: the elements found by
    [document.querySelectorAll('[data-section-id]')], in document order. *)
Variable sections : list Element.

Definition resetWheel (s : State) : State :=
  let s1 :=
    match wheelResetTimer (nav s) with
    | Some h => on_nav (set_wheelResetTimer None) (on_win (clearTimeout h) s)
    | None => s
    end in
  on_nav (set_wheelDelta 0) s1.

Definition unlockScroll (s : State) : State :=
  let s1 :=
    match releaseTimer (nav s) with
    | Some h => on_nav (set_releaseTimer None) (on_win (clearTimeout h) s)
    | None => s
    end in
  on_nav (set_isAnimating false) s1.

Definition scheduleWheelReset (s : State) : State :=
  let s1 :=
    match wheelResetTimer (nav s) with
    | Some h => on_win (clearTimeout h) s
    | None => s
    end in
  let (h, w) := setTimeout WheelResetCb WHEEL_RESET_MS (win s1) in
  {| nav := set_wheelResetTimer (Some h) (nav s1); win := w |}.

Definition scrollToIndex (index : Z) (s : State) : State :=
  if (index <? 0) || (index >=? Z.of_nat (length sections)) then s
  else
    let s1 := resetWheel s in
    let s2 := on_nav (set_isAnimating true) s1 in
    let s3 := on_win (fun w => set_scrolled (scrolled w ++ [index]) w) s2 in
    let s4 :=
      match releaseTimer (nav s3) with
      | Some h => on_win (clearTimeout h) s3
      | None => s3
      end in
    let (h, w) := setTimeout ReleaseCb SCROLL_LOCK_MS (win s4) in
    {| nav := set_releaseTimer (Some h) (nav s4); win := w |}.

(** What a timer does when it fires: the arrow function given to
    [setTimeout] in [scheduleWheelReset], resp. in [scrollToIndex]. *)
Definition runCallback (cb : Callback) (s : State) : State :=
  match cb with
  | WheelResetCb =>
      on_nav (fun n => set_wheelResetTimer None (set_wheelDelta 0 n)) s
  | ReleaseCb => unlockScroll s
  end.

(** [section === element]. *)
Definition sameNode (a b : Element) : bool := Nat.eqb (node a) (node b).

(** [sectionSide === 'right' ? 'right' : 'left']. *)
Definition sideOf (section : Element) : Side :=
  match sectionSide section with
  | Some v => if String.eqb v "right" then SideRight else SideLeft
  | None => SideLeft
  end.

(** The assignments of the [sections.forEach] loop of [setActive]. *)
Fixpoint forEachSection (element : Element) (secs : list Element) (idx : Z)
    (n : Nav) : Nav :=
  match secs with
  | [] => n
  | section :: rest =>
      let n1 :=
        if sameNode section element
        then set_activeSide (sideOf section) (set_activeIndex idx n)
        else n in
      forEachSection element rest (idx + 1) n1
  end.

Definition setActive (element : Element) (s : State) : State :=
  match sectionId element with
  | None => s
  | Some EmptyString => s
  | Some id0 =>
      let s1 :=
        on_win (set_isActiveClass
                  (List.map (fun section => sameNode section element) sections)) s in
      let s2 := on_nav (forEachSection element sections 0) s1 in
      on_win (fun w =>
                set_dispatched
                  (dispatched w ++ [{| id := id0; side := activeSide (nav s2) |}]) w)
             s2
  end.

(** An [IntersectionObserverEntry]. *)
Record Entry := {
  target : Element;
  isIntersecting : bool;
  intersectionRatio : Q
}.

(** [Array.prototype.sort] is stable: an insertion sort with the same
    comparator gives the same array. *)
Fixpoint insertBy (cmp : Entry -> Entry -> Q) (x : Entry) (l : list Entry)
    : list Entry :=
  match l with
  | [] => [x]
  | y :: rest =>
      if Qle_bool (cmp x y) 0 then x :: l else y :: insertBy cmp x rest
  end.

Definition sortBy (cmp : Entry -> Entry -> Q) (l : list Entry) : list Entry :=
  fold_right (insertBy cmp) [] l.

(** [entries.filter(...).sort(...)[0]]. *)
Definition mostVisible (entries : list Entry) : option Entry :=
  hd_error
    (sortBy (fun a b => (intersectionRatio b - intersectionRatio a)%Q)
            (List.filter isIntersecting entries)).

(** The callback given to [new IntersectionObserver]. *)
Definition observerCallback (entries : list Entry) (s : State) : State :=
  match mostVisible entries with
  | Some visible =>
      if html (target visible) then setActive (target visible) s else s
  | None => s
  end.

Definition handleWheel (deltaY : Z) (s : State) : State :=
  if isAnimating (nav s) then preventDefault s
  else
    let s1 := on_nav (fun n => set_wheelDelta (wheelDelta n + deltaY) n) s in
    let s2 := scheduleWheelReset s1 in
    if Z.abs (wheelDelta (nav s2)) <? WHEEL_TRIGGER then s2
    else
      let s3 := preventDefault s2 in
      let direction := if wheelDelta (nav s3) >? 0 then 1 else -1 in
      let targetIndex := activeIndex (nav s3) + direction in
      let s4 :=
        if (targetIndex >=? 0) && (targetIndex <? Z.of_nat (length sections))
        then scrollToIndex targetIndex s3
        else s3 in
      resetWheel s4.

(** [touches]: the [clientY] of each touch point of the event. *)
Definition handleTouchStart (touches : list Z) (s : State) : State :=
  match touches with
  | [y] => resetWheel (on_nav (set_touchStartY (Some y)) s)
  | _ => s
  end.

Definition handleTouchMove (touches : list Z) (s : State) : State :=
  match touchStartY (nav s) with
  | None => s
  | Some startY =>
      if isAnimating (nav s) then s
      else
        match touches with
        | [] => s (* [event.touches[0]] is undefined: the handler throws
                     before it has written anything *)
        | currentY :: _ =>
            let delta := startY - currentY in
            if Z.abs delta <? TOUCH_TRIGGER then s
            else
              let s1 := preventDefault s in
              let direction := if delta >? 0 then 1 else -1 in
              let targetIndex := activeIndex (nav s1) + direction in
              let s2 :=
                if (targetIndex >=? 0)
                   && (targetIndex <? Z.of_nat (length sections))
                then scrollToIndex targetIndex s1
                else s1 in
              on_nav (set_touchStartY None) s2
        end
  end.

Definition handleTouchEnd (s : State) : State :=
  on_nav (set_touchStartY None) s.

(** The callback given to [requestAnimationFrame] at mount. *)
Definition firstFrame (s : State) : State :=
  if rafPending (win s) then
    let s1 := on_win (set_rafPending false) s in
    match sections with
    | first :: _ => setActive first s1
    | [] => s1
    end
  else s.

(** *** The passage of time *)

(** The pending timer that fires next within [limit]: the one due first,
    the older one on a tie. *)
Fixpoint earliest (limit : N) (ts : list Timer) : option Timer :=
  match ts with
  | [] => None
  | t :: rest =>
      match earliest limit rest with
      | Some u =>
          if ((due t <=? limit) && (due t <=? due u))%N then Some t else Some u
      | None => if (due t <=? limit)%N then Some t else None
      end
  end.

(** Fire, in order, the timers due by [limit]. No callback of the
    component sets a timer, so [fuel = length timers] is enough. *)
Fixpoint fire (fuel : nat) (limit : N) (s : State) : State :=
  match fuel with
  | O => s
  | S k =>
      match earliest limit (timers (win s)) with
      | None => s
      | Some t =>
          fire k limit (runCallback (callback t) (on_win (clearTimeout (tid t)) s))
      end
  end.

Definition elapse (dt : N) (s : State) : State :=
  let limit := (now (win s) + dt)%N in
  on_win (set_now limit) (fire (length (timers (win s))) limit s).

(** *** The component as a machine *)

Inductive Input :=
| Wheel (deltaY : Z)
| TouchStart (touches : list Z)
| TouchMove (touches : list Z)
| TouchEnd                        (* [touchend] and [touchcancel] *)
| Intersection (entries : list Entry)
| FirstFrame
| Elapse (dt : N).

Definition step (s : State) (i : Input) : State :=
  match i with
  | Wheel deltaY => handleWheel deltaY s
  | TouchStart touches => handleTouchStart touches s
  | TouchMove touches => handleTouchMove touches s
  | TouchEnd => handleTouchEnd s
  | Intersection entries => observerCallback entries s
  | FirstFrame => firstFrame s
  | Elapse dt => elapse dt s
  end.

Definition run (s : State) (inputs : list Input) : State :=
  fold_left step inputs s.

Definition initialNav : Nav :=
  {| activeIndex := 0; isAnimating := false; wheelDelta := 0;
     wheelResetTimer := None; releaseTimer := None; touchStartY := None;
     activeSide := SideLeft |}.

(** The browser as the effect finds it: the time [t0], the next timer
    handle [h0], the classes the markup gives the sections. *)
Definition initialWindow (t0 : N) (h0 : nat) (classes : list bool) : Window :=
  {| now := t0; nextTimer := h0; timers := []; scrolled := [];
     isActiveClass := classes; dispatched := []; prevented := 0;
     rafPending := true |}.

(** The body of [useEffect]: nothing is set up when no section is found. *)
Definition mount (t0 : N) (h0 : nat) (classes : list bool) : option State :=
  match sections with
  | [] => None
  | _ :: _ => Some {| nav := initialNav; win := initialWindow t0 h0 classes |}
  end.

(** Milliseconds that pass during [inputs]. *)
Definition elapsed (inputs : list Input) : N :=
  fold_right (fun i acc => match i with Elapse dt => (dt + acc)%N | _ => acc end)
             0%N inputs.

End Handlers.

(** *** Invariant of the timers *)

(** The timers of the component, as its two handles see them: handles are
    fresh, no handle is used twice, the timer the wheel handle names is a
    wheel reset, and every pending release is the one the release handle
    names. *)
Definition timersOk (wheel release : option nat) (next : nat)
    (ts : list Timer) : Prop :=
  (forall t, In t ts -> (tid t < next)%nat)
  /\ (forall t u, In t ts -> In u ts -> tid t = tid u -> t = u)
  /\ (forall h, wheel = Some h ->
        (h < next)%nat
        /\ forall t, In t ts -> tid t = h -> callback t = WheelResetCb)
  /\ (forall t, In t ts -> callback t = ReleaseCb -> release = Some (tid t)).

Definition wf (s : State) : Prop :=
  timersOk (wheelResetTimer (nav s)) (releaseTimer (nav s))
           (nextTimer (win s)) (timers (win s)).

(** The lock is set and its release is pending, due at [d]. *)
Definition lockedUntil (d : N) (s : State) : Prop :=
  isAnimating (nav s) = true
  /\ exists t, In t (timers (win s))
               /\ releaseTimer (nav s) = Some (tid t)
               /\ callback t = ReleaseCb
               /\ due t = d.

(** The inputs that reach [setActive]. *)
Definition notifies (i : Input) : bool :=
  match i with
  | Intersection _ | FirstFrame => true
  | _ => false
  end.

(** The inputs that move the clock. *)
Definition passesTime (i : Input) : bool :=
  match i with
  | Elapse _ => true
  | _ => false
  end.

(** What [setActive] commits, and nothing else does: the active index and
    side, the published events, the [is-active] classes. *)
Definition sameActive (s s' : State) : Prop :=
  activeIndex (nav s') = activeIndex (nav s)
  /\ activeSide (nav s') = activeSide (nav s)
  /\ dispatched (win s') = dispatched (win s)
  /\ isActiveClass (win s') = isActiveClass (win s).

(** *** A page of three sections *)

Definition about : Element :=
  {| node := 1; sectionId := Some "about"%string;
     sectionSide := Some "left"%string; html := true |}.

Definition tech : Element :=
  {| node := 2; sectionId := Some "tech"%string;
     sectionSide := Some "right"%string; html := true |}.

Definition events : Element :=
  {| node := 3; sectionId := Some "events"%string;
     sectionSide := Some "left"%string; html := true |}.

Definition page : list Element := [about; tech; events].

(** The page just mounted, at time 0. *)
Definition mounted : State :=
  {| nav := initialNav; win := initialWindow 0 1 [false; false; false] |}.

(** The observer reports [element] as intersecting, with [ratio]. *)
Definition sees (element : Element) (ratio : Q) : Entry :=
  {| target := element; isIntersecting := true; intersectionRatio := ratio |}.

(** *** Teardown *)

(** The function the effect returns. The observer is disconnected and the
    listeners are removed, so no input reaches a handler afterwards; of the
    state, it cancels the frame requested at mount, resets the wheel and
    clears the release timer. *)
Definition cleanup (s : State) : State :=
  let s1 := on_win (set_rafPending false) s in
  let s2 := resetWheel s1 in
  match releaseTimer (nav s2) with
  | Some h => on_win (clearTimeout h) s2
  | None => s2
  end.

(** *** What every reachable state satisfies *)

(** A handle and the timers of its kind: every pending timer of the kind
    is the one the handle names and is due within [bound] of the clock,
    and a handle names a pending timer of the kind. *)
Definition slotOk (kind : Callback) (bound : N) (handle : option nat)
    (clock : N) (ts : list Timer) : Prop :=
  (forall t, In t ts -> callback t = kind ->
             handle = Some (tid t) /\ (due t <= clock + bound)%N)
  /\ (forall h, handle = Some h ->
                exists t, In t ts /\ tid t = h /\ callback t = kind).

Definition timersSteadyOf (wheel release : option nat) (clock : N)
    (next : nat) (ts : list Timer) : Prop :=
  List.NoDup (List.map tid ts)
  /\ (forall t, In t ts -> (tid t < next)%nat)
  /\ slotOk WheelResetCb WHEEL_RESET_MS wheel clock ts
  /\ slotOk ReleaseCb SCROLL_LOCK_MS release clock ts.

Definition timersSteady (s : State) : Prop :=
  timersSteadyOf (wheelResetTimer (nav s)) (releaseTimer (nav s))
                 (now (win s)) (nextTimer (win s)) (timers (win s)).

(** The closure variables: a non-zero accumulator has its reset pending;
    a locked navigator has an empty accumulator and no reset pending; the
    lock is set exactly when a release is pending; the accumulator is
    below the trigger; the active index is the index of a section. *)
Definition navSteady (sections : list Element) (s : State) : Prop :=
  (wheelDelta (nav s) <> 0 -> wheelResetTimer (nav s) <> None)
  /\ (isAnimating (nav s) = true ->
      wheelDelta (nav s) = 0 /\ wheelResetTimer (nav s) = None)
  /\ (isAnimating (nav s) = true <-> releaseTimer (nav s) <> None)
  /\ Z.abs (wheelDelta (nav s)) < WHEEL_TRIGGER
  /\ 0 <= activeIndex (nav s) < Z.of_nat (length sections).

Definition steady (sections : list Element) (s : State) : Prop :=
  timersSteady s /\ navSteady sections s.

(** The timers that [clearTimeout h] leaves. *)
Definition without (h : nat) (ts : list Timer) : list Timer :=
  List.filter (fun t => negb (Nat.eqb (tid t) h)) ts.

(** The [i]-th section is the only one marked active. *)
Definition onlyActive (i n : nat) : list bool :=
  List.map (fun k => Nat.eqb k i) (seq 0 n).

End Navigator.

(** ** AsciiCanvas.tsx *)

Module Canvas.

Record Ripple := {
  x : R;
  y : R;
  start : R;
  duration : R;
  speed : R;
  strength : R
}.

Definition CELL_SIZE : nat := 18.
Definition MAX_RIPPLES : nat := 6.
Definition STAR_DENSITY : Q := 0.012.

(** [gridMetaRef.current]. *)
Record Grid := { cols : nat; rows : nat; cell : nat }.

(** The refs and the React state of the component. [starMask] is the
    [Uint8Array]; [drawn] counts the calls of [Math.random] made so far
    and [frames] the calls of [requestAnimationFrame]. *)
Record State := {
  ripples : list Ripple;
  starMask : list N;
  gridMeta : Grid;
  activeSection : string;
  animation : option nat;
  frames : nat;
  drawn : nat
}.

(** The [detail] of a received event, as the handler reads it: a field
    that is absent reads [undefined], here [None]. *)
Record Payload := { id : option string; side : option string }.

Definition set_ripples (v : list Ripple) (c : State) : State :=
  {| ripples := v; starMask := starMask c; gridMeta := gridMeta c;
     activeSection := activeSection c; animation := animation c;
     frames := frames c; drawn := drawn c |}.

Definition set_stars (mask : list N) (k : nat) (c : State) : State :=
  {| ripples := ripples c; starMask := mask; gridMeta := gridMeta c;
     activeSection := activeSection c; animation := animation c;
     frames := frames c; drawn := k |}.

Definition set_gridMeta (v : Grid) (c : State) : State :=
  {| ripples := ripples c; starMask := starMask c; gridMeta := v;
     activeSection := activeSection c; animation := animation c;
     frames := frames c; drawn := drawn c |}.

Definition setActiveSection (v : string) (c : State) : State :=
  {| ripples := ripples c; starMask := starMask c; gridMeta := gridMeta c;
     activeSection := v; animation := animation c;
     frames := frames c; drawn := drawn c |}.

(** [animationRef.current = requestAnimationFrame(renderFrame)]. *)
Definition requestAnimationFrame (c : State) : State :=
  {| ripples := ripples c; starMask := starMask c; gridMeta := gridMeta c;
     activeSection := activeSection c; animation := Some (frames c);
     frames := S (frames c); drawn := drawn c |}.

Section Component.

(** [random k]: the value of the [k]-th call of [Math.random] (counted
    from 0), a number of [[0, 1)]. *)
Variable random : nat -> Q.

(** *** Star mask *)

(** [mask[idx] = 1] on a typed array: a write outside the array is
    dropped. *)
Definition writeStar (idx : Z) (mask : list N) : list N :=
  if idx <? 0 then mask else <[Z.to_nat idx := 1%N]> mask.

(** The [for] loop of [regenerateStars], [k] being the number of random
    draws made before it. *)
Fixpoint sampleStars (count total : nat) (mask : list N) (k : nat)
    : list N * nat :=
  match count with
  | O => (mask, k)
  | S rest =>
      let idx := Qfloor (random k * inject_Z (Z.of_nat total)) in
      sampleStars rest total (writeStar idx mask) (S k)
  end.

(** [Math.max(80, Math.floor(total * STAR_DENSITY))], the product taken
    exactly. *)
Definition starCount (total : nat) : nat :=
  Z.to_nat (Z.max 80 (Qfloor (inject_Z (Z.of_nat total) * STAR_DENSITY))).

Definition regenerateStars (cols rows : nat) (c : State) : State :=
  let total := (cols * rows)%nat in
  let mask := replicate total 0%N in
  let (mask', k) := sampleStars (starCount total) total mask (drawn c) in
  set_stars mask' k c.

(** [Math.ceil(width / CELL_SIZE)]. *)
Definition cellsAcross (width : nat) : nat :=
  Z.to_nat (Qceiling (inject_Z (Z.of_nat width) / inject_Z (Z.of_nat CELL_SIZE))).

(** [handleResize], for [window.innerWidth] and [window.innerHeight]; the
    sizing of the canvas element and of its context is paint-only and is
    left out. *)
Definition handleResize (innerWidth innerHeight : nat) (c : State) : State :=
  let cols := cellsAcross innerWidth in
  let rows := cellsAcross innerHeight in
  regenerateStars cols rows
    (set_gridMeta {| cols := cols; rows := rows; cell := CELL_SIZE |} c).

(** *** Ripples *)

(** [now] is [performance.now()]. *)
Definition pushRipple (originX originY strength now : R) (c : State) : State :=
  let pushed :=
    ripples c ++ [{| x := originX; y := originY; start := now;
                     duration := 2.6; speed := 7.1; strength := strength |}] in
  if (MAX_RIPPLES <? length pushed)%nat
  then set_ripples (tl pushed) c
  else set_ripples pushed c.

(** [detail]: [custom.detail], absent when [None]; [clientWidth] and
    [clientHeight]: the size of the canvas element. *)
Definition handleSectionChange (detail : option Payload)
    (clientWidth clientHeight : Z) (now : R) (c : State) : State :=
  (* [custom.detail?.id] *)
  let id := match detail with Some d => id d | None => None end in
  match id with
  | None => c
  | Some EmptyString => c
  | Some id0 =>
      let c1 := setActiveSection id0 c in
      (* [custom.detail?.side ?? 'left'] *)
      let contentSide :=
        match detail with
        | Some {| side := Some v |} => v
        | _ => "left"%string
        end in
      let iconSide :=
        (if String.eqb contentSide "left" then "right" else "left")%string in
      let width := IZR clientWidth in
      let height := IZR clientHeight in
      let originX :=
        (if String.eqb iconSide "left" then width * 0.18 else width * 0.82)%R in
      pushRipple originX (height * 0.45)%R 0.65%R now c1
  end.

(** *** The frame *)

Local Open Scope R_scope.

Definition clamp (value min max : R) : R := Rmin max (Rmax min value).

(** [Math.max(0, 1 - age / ripple.duration)]. *)
Definition temporalDecay (ripple : Ripple) (age : R) : R :=
  Rmax 0 (1 - age / duration ripple).

Definition attenuation (ripple : Ripple) (age dist : R) : R :=
  temporalDecay ripple age * exp (- dist * 0.001).

Definition wave (ripple : Ripple) (age dist : R) : R :=
  sin (dist * 0.015 - age * speed ripple * 0.6).

(** What one turn of the ripple loop adds to [value], at the cell whose
    corner is [(px, py)]. *)
Definition rippleTerm (timestamp px py cell : R) (ripple : Ripple) : R :=
  let age := (timestamp - start ripple) / 1000 in
  let dx := px + cell * 0.5 - x ripple in
  let dy := py + cell * 0.5 - y ripple in
  let dist := sqrt (dx * dx + dy * dy) in
  wave ripple age dist * attenuation ripple age dist * strength ripple * 0.2.

(** The ripple loop, from the last ripple to the first. *)
Definition addRipples (timestamp px py cell : R) (rs : list Ripple) (value : R) : R :=
  fold_left (fun v ripple => v + rippleTerm timestamp px py cell ripple)
            (rev rs) value.

(** The composited value of the cell [(row, col)], before and after the
    squashing to [[0, 1]]. *)
Definition cellValue (timestamp width height : R) (c : State) (row col : nat) : R :=
  let g := gridMeta c in
  let time := timestamp * 0.001 in
  let py := INR row * INR (cell g) in
  let ny := py / height - 0.5 in
  let px := INR col * INR (cell g) in
  let nx := px / width - 0.5 in
  let idx := (row * cols g + col)%nat in
  let baseNoise :=
    (sin (INR row * 6.1 + INR col * 4.6 + time * 0.45)
     + cos (INR row * 2.8 - INR col * 3.9 + time * 0.35)
     + 2) * 0.08 in
  let isStar := match starMask c !! idx with Some 1%N => true | _ => false end in
  let value :=
    sin ((nx + time * 0.08) * 1.9)
    + cos ((ny - time * 0.07) * 2.4) * 0.55
    + sin ((nx + ny + time * 0.04) * 2.6) * 0.25
    + (baseNoise - 0.5) * 0.45 in
  let value :=
    if isStar then value + sin (time * 1.2 + nx * 9 + ny * 8) * 0.9 else value in
  addRipples timestamp px py (INR (cell g)) (ripples c) value.

Definition normalized (value : R) : R := clamp ((sin value + 1) * 0.5) 0 1.

(** [renderFrame]: the normalized value of every cell, row by row (the
    glyph and the colour painted are functions of it and of the star
    flag), and the state after it. The ripple collection is read only. *)
Definition renderFrame (timestamp : R) (clientWidth clientHeight : Z)
    (c : State) : State * list (list R) :=
  let width := IZR clientWidth in
  let height := IZR clientHeight in
  let g := gridMeta c in
  let painted :=
    List.map (fun row =>
                List.map (fun col =>
                            normalized (cellValue timestamp width height c row col))
                         (seq 0 (cols g)))
             (seq 0 (rows g)) in
  (requestAnimationFrame c, painted).

(** *** The component as a machine *)

Inductive Input :=
| Resize (innerWidth innerHeight : nat)
| SectionChange (detail : option Payload) (clientWidth clientHeight : Z) (now : R)
| Frame (timestamp : R) (clientWidth clientHeight : Z).

Definition step (c : State) (i : Input) : State :=
  match i with
  | Resize w h => handleResize w h c
  | SectionChange detail w h now => handleSectionChange detail w h now c
  | Frame timestamp w h => fst (renderFrame timestamp w h c)
  end.

Definition run (c : State) (inputs : list Input) : State :=
  fold_left step inputs c.

Definition initialState : State :=
  {| ripples := []; starMask := []; gridMeta := {| cols := 0; rows := 0; cell := CELL_SIZE |};
     activeSection := "about"; animation := None; frames := 0; drawn := 0 |}.

(** The body of [useEffect]: nothing happens without a canvas or without
    its 2d context. *)
Definition mount (hasCanvas hasContext : bool) (innerWidth innerHeight : nat)
    (clientWidth clientHeight : Z) (now : R) : option State :=
  if negb hasCanvas then None
  else if negb hasContext then None
  else
    let c1 := handleResize innerWidth innerHeight initialState in
    let c2 := requestAnimationFrame c1 in
    Some (pushRipple (IZR clientWidth * 0.18) (IZR clientHeight * 0.45) 0.4 now c2).

End Component.

(** *** What a cell is painted with *)



(** [starMaskRef.current[idx] === 1], [idx] being the index of the cell. *)
Definition isStarAt (c : State) (row col : nat) : bool :=
  match starMask c !! (row * cols (gridMeta c) + col)%nat with
  | Some 1%N => true
  | _ => false
  end.




(** The stars of a mask. *)
Definition starsIn (mask : list N) : nat :=
  length (List.filter (N.eqb 1) mask).

(** The last [n] elements of a list. *)
Definition lastn {A : Type} (n : nat) (l : list A) : list A :=
  skipn (length l - n) l.

(** What holds of the mask and of the ripples in every state the component
    reaches: the mask has one entry, 0 or 1, for each cell of the grid, the
    cells are [CELL_SIZE] wide, and every ripple has a strength between 0
    and 0.65. *)
Definition canvasOk (c : State) : Prop :=
  length (starMask c) = (cols (gridMeta c) * rows (gridMeta c))%nat
  /\ cell (gridMeta c) = CELL_SIZE
  /\ Forall (fun v => v = 0%N \/ v = 1%N) (starMask c)
  /\ Forall (fun r => (0 <= strength r <= 0.65)%R) (ripples c).

(** The ripple [pushRipple] creates. *)
Definition rippleAt (originX originY strength now : R) : Ripple :=
  {| x := originX; y := originY; start := now;
     duration := 2.6; speed := 7.1; strength := strength |}.

(** What holds of the collection in every state the component reaches: at
    most [MAX_RIPPLES] ripples, each of duration 2.6. *)
Definition ripplesOk (c : State) : Prop :=
  (length (ripples c) <= MAX_RIPPLES)%nat
  /\ Forall (fun r => duration r = 2.6%R) (ripples c).

(** Insertions made one after the other, each given by its origin, its
    strength and its time. *)
Definition rippleOf (p : R * R * R * R) : Ripple :=
  let '(originX, originY, strength, now) := p in
  rippleAt originX originY strength now.

Definition pushAll (ps : list (R * R * R * R)) (c : State) : State :=
  fold_left
    (fun c p =>
       let '(originX, originY, strength, now) := p in
       pushRipple originX originY strength now c)
    ps c.

(** *** A small canvas *)

(** A source of random numbers: 0, 0.1, ..., 0.9, 0, ... *)
Definition dice (k : nat) : Q := inject_Z (Z.of_nat (k mod 10)) / 10.

(** The component after its effect has run at time 0 in a window of 36 by
    36 pixels: the state [mount] returns there, spelled out. *)
Definition started : State :=
  pushRipple (IZR 36 * 0.18) (IZR 36 * 0.45) 0.4 0
    (requestAnimationFrame (handleResize dice 36 36 initialState)).

(** A received event that carries an id and no side. *)
Definition sideless : option Payload :=
  Some {| id := Some "tech"%string; side := None |}.

End Canvas.

(** * Properties of the section navigator *)

Module NavigatorFacts.
Import Navigator.

(** ** Timers *)

Lemma timersOk_filter wheel release next ts (p : Timer -> bool) :
  timersOk wheel release next ts ->
  timersOk wheel release next (List.filter p ts).
Proof.
  intros (Hf & Hu & Hw & Ho). repeat split.
  - intros t Ht. apply List.filter_In in Ht as [Ht _]. auto.
  - intros t u Ht Hu'. apply List.filter_In in Ht as [Ht _].
    apply List.filter_In in Hu' as [Hu' _]. auto.
  - apply (Hw h H).
  - intros t Ht. apply List.filter_In in Ht as [Ht _]. apply (Hw h H); auto.
  - intros t Ht. apply List.filter_In in Ht as [Ht _]. auto.
Qed.

Lemma timersOk_no_wheel wheel release next ts :
  timersOk wheel release next ts -> timersOk None release next ts.
Proof.
  intros (Hf & Hu & Hw & Ho). repeat split; auto; discriminate.
Qed.

Lemma timersOk_released wheel release next ts :
  timersOk wheel release next ts ->
  timersOk wheel None next
    (match release with
     | Some h => List.filter (fun t => negb (Nat.eqb (tid t) h)) ts
     | None => ts
     end).
Proof.
  intros H. destruct release as [h|].
  - pose proof (timersOk_filter _ _ _ _ (fun t => negb (Nat.eqb (tid t) h)) H)
      as (Hf & Hu & Hw & Ho).
    repeat split; auto; try apply Hw; auto.
    intros t Ht Hc. exfalso.
    specialize (Ho t Ht Hc). apply List.filter_In in Ht as [_ Hne].
    injection Ho as ->. rewrite Nat.eqb_refl in Hne. discriminate.
  - exact H.
Qed.

Lemma timersOk_setTimeout_wheel wheel release next ts d :
  timersOk wheel release next ts ->
  timersOk (Some next) release (S next)
    (ts ++ [{| tid := next; due := d; callback := WheelResetCb |}]).
Proof.
  intros (Hf & Hu & Hw & Ho). repeat split.
  - intros t Ht. apply List.in_app_iff in Ht as [Ht | [<- | []]]; simpl.
    + specialize (Hf t Ht). lia.
    + lia.
  - intros t u Ht Hu'.
    apply List.in_app_iff in Ht as [Ht | [<- | []]];
      apply List.in_app_iff in Hu' as [Hu' | [<- | []]]; simpl; auto.
    + intros E. specialize (Hf t Ht). lia.
    + intros E. specialize (Hf u Hu'). lia.
  - injection H as <-. lia.
  - injection H as <-. intros t Ht E.
    apply List.in_app_iff in Ht as [Ht | [<- | []]]; simpl; auto.
    specialize (Hf t Ht). lia.
  - intros t Ht Hc. apply List.in_app_iff in Ht as [Ht | [<- | []]]; auto.
    discriminate.
Qed.

Lemma timersOk_setTimeout_release wheel next ts d :
  timersOk wheel None next ts ->
  timersOk wheel (Some next) (S next)
    (ts ++ [{| tid := next; due := d; callback := ReleaseCb |}]).
Proof.
  intros (Hf & Hu & Hw & Ho). repeat split.
  - intros t Ht. apply List.in_app_iff in Ht as [Ht | [<- | []]]; simpl.
    + specialize (Hf t Ht). lia.
    + lia.
  - intros t u Ht Hu'.
    apply List.in_app_iff in Ht as [Ht | [<- | []]];
      apply List.in_app_iff in Hu' as [Hu' | [<- | []]]; simpl; auto.
    + intros E. specialize (Hf t Ht). lia.
    + intros E. specialize (Hf u Hu'). lia.
  - destruct (Hw h H). lia.
  - intros t Ht E. destruct (Hw h H) as [Hlt Hk].
    apply List.in_app_iff in Ht as [Ht | [<- | []]]; auto.
    simpl in E. lia.
  - intros t Ht Hc. apply List.in_app_iff in Ht as [Ht | [<- | []]]; auto.
    specialize (Ho t Ht Hc). discriminate.
Qed.

Section Invariant.
Variable sections : list Element.

Lemma wf_resetWheel s : wf s -> wf (resetWheel s).
Proof.
  unfold wf, resetWheel. destruct s as [[] []]; simpl.
  destruct wheelResetTimer0; simpl; intros H.
  - apply timersOk_no_wheel with (wheel := Some n), timersOk_filter, H.
  - exact H.
Qed.

Lemma wf_unlockScroll s : wf s -> wf (unlockScroll s).
Proof.
  unfold wf, unlockScroll. destruct s as [[] []]; simpl.
  intros H. apply timersOk_released in H.
  destruct releaseTimer0; exact H.
Qed.

Lemma wf_scheduleWheelReset s : wf s -> wf (scheduleWheelReset s).
Proof.
  unfold wf, scheduleWheelReset. destruct s as [[] []]; simpl.
  destruct wheelResetTimer0; simpl; intros H.
  - apply timersOk_setTimeout_wheel with (wheel := Some n), timersOk_filter, H.
  - apply timersOk_setTimeout_wheel with (wheel := None), H.
Qed.

Lemma wf_scrollToIndex index s : wf s -> wf (scrollToIndex sections index s).
Proof.
  intros H. unfold scrollToIndex.
  destruct ((index <? 0) || (index >=? Z.of_nat (length sections))); [exact H|].
  apply wf_resetWheel in H. revert H.
  unfold wf. destruct (resetWheel s) as [[] []]; simpl.
  intros H. apply timersOk_released in H.
  destruct releaseTimer0; simpl; apply timersOk_setTimeout_release, H.
Qed.

Lemma wf_preventDefault s : wf s -> wf (preventDefault s).
Proof. unfold wf. destruct s as [[] []]; simpl. auto. Qed.

Lemma forEachSection_handles element secs idx n :
  wheelResetTimer (forEachSection element secs idx n) = wheelResetTimer n
  /\ releaseTimer (forEachSection element secs idx n) = releaseTimer n
  /\ isAnimating (forEachSection element secs idx n) = isAnimating n
  /\ wheelDelta (forEachSection element secs idx n) = wheelDelta n
  /\ touchStartY (forEachSection element secs idx n) = touchStartY n.
Proof.
  revert idx n. induction secs as [|section rest IH]; intros idx n; simpl.
  - auto.
  - destruct (sameNode section element);
      destruct (IH (idx + 1) n) as (? & ? & ? & ? & ?);
      destruct (IH (idx + 1) (set_activeSide (sideOf section) (set_activeIndex idx n)))
        as (? & ? & ? & ? & ?); simpl in *; auto.
Qed.

Lemma setActive_timers element s :
  timers (win (setActive sections element s)) = timers (win s)
  /\ nextTimer (win (setActive sections element s)) = nextTimer (win s)
  /\ now (win (setActive sections element s)) = now (win s)
  /\ scrolled (win (setActive sections element s)) = scrolled (win s)
  /\ wheelResetTimer (nav (setActive sections element s)) = wheelResetTimer (nav s)
  /\ releaseTimer (nav (setActive sections element s)) = releaseTimer (nav s)
  /\ isAnimating (nav (setActive sections element s)) = isAnimating (nav s)
  /\ wheelDelta (nav (setActive sections element s)) = wheelDelta (nav s)
  /\ touchStartY (nav (setActive sections element s)) = touchStartY (nav s).
Proof.
  unfold setActive.
  destruct (sectionId element) as [[|a id0]|]; simpl; try tauto.
  destruct (forEachSection_handles element sections 0 (nav s)) as (? & ? & ? & ? & ?).
  tauto.
Qed.

Lemma wf_setActive element s : wf s -> wf (setActive sections element s).
Proof.
  unfold wf.
  destruct (setActive_timers element s) as (-> & -> & _ & _ & -> & -> & _).
  auto.
Qed.

Lemma wf_observerCallback entries s : wf s -> wf (observerCallback sections entries s).
Proof.
  unfold observerCallback. destruct (mostVisible entries) as [v|]; auto.
  destruct (html (target v)); auto using wf_setActive.
Qed.

Lemma wf_firstFrame s : wf s -> wf (firstFrame sections s).
Proof.
  unfold firstFrame. destruct (rafPending (win s)); auto.
  intros H. assert (H1 : wf (on_win (set_rafPending false) s)).
  { revert H. unfold wf. destruct s as [[] []]; simpl. auto. }
  assert (Hl : forall l : list Element,
             wf match l with
                | first :: _ => setActive sections first (on_win (set_rafPending false) s)
                | [] => on_win (set_rafPending false) s
                end)
    by (intros [|first ?]; auto using wf_setActive).
  apply Hl.
Qed.

Lemma wf_handleWheel deltaY s : wf s -> wf (handleWheel sections deltaY s).
Proof.
  intros H. unfold handleWheel.
  destruct (isAnimating (nav s)); [apply wf_preventDefault, H|].
  set (s1 := on_nav _ s).
  assert (H1 : wf s1).
  { revert H. unfold s1, wf. destruct s as [[] []]; simpl. auto. }
  apply wf_scheduleWheelReset in H1.
  destruct (Z.abs _ <? WHEEL_TRIGGER); [exact H1|].
  apply wf_resetWheel.
  destruct (_ && _); [apply wf_scrollToIndex|]; apply wf_preventDefault, H1.
Qed.

Lemma wf_handleTouchStart touches s : wf s -> wf (handleTouchStart touches s).
Proof.
  intros H. unfold handleTouchStart.
  destruct touches as [|y [|]]; auto.
  apply wf_resetWheel. revert H. unfold wf. destruct s as [[] []]; simpl. auto.
Qed.

Lemma wf_touchStartY v s : wf s -> wf (on_nav (set_touchStartY v) s).
Proof. unfold wf. destruct s as [[] []]; simpl. auto. Qed.

Lemma wf_handleTouchMove touches s : wf s -> wf (handleTouchMove sections touches s).
Proof.
  intros H. unfold handleTouchMove.
  destruct (touchStartY (nav s)); auto.
  destruct (isAnimating (nav s)); auto.
  destruct touches as [|currentY ?]; auto.
  destruct (Z.abs _ <? TOUCH_TRIGGER); auto.
  apply wf_touchStartY.
  destruct (_ && _); [apply wf_scrollToIndex|]; apply wf_preventDefault, H.
Qed.

Lemma wf_runCallback cb s : wf s -> wf (runCallback cb s).
Proof.
  destruct cb; simpl.
  - unfold wf. destruct s as [[] []]; simpl. apply timersOk_no_wheel.
  - apply wf_unlockScroll.
Qed.

Lemma wf_clearTimeout h s : wf s -> wf (on_win (clearTimeout h) s).
Proof. unfold wf. destruct s as [[] []]; simpl. apply timersOk_filter. Qed.

Lemma wf_fire k limit s : wf s -> wf (fire k limit s).
Proof.
  revert s. induction k as [|k IH]; intros s H; simpl; auto.
  destruct (earliest limit (timers (win s))); auto.
  apply IH, wf_runCallback, wf_clearTimeout, H.
Qed.

Lemma wf_elapse dt s : wf s -> wf (elapse dt s).
Proof.
  intros H. unfold elapse.
  apply (wf_fire (length (timers (win s))) (now (win s) + dt)%N) in H.
  revert H. unfold wf. destruct (fire _ _ s) as [[] []]; simpl. auto.
Qed.

Lemma wf_step s i : wf s -> wf (step sections s i).
Proof.
  destruct i; simpl;
    auto using wf_handleWheel, wf_handleTouchStart, wf_handleTouchMove,
               wf_touchStartY, wf_observerCallback, wf_firstFrame, wf_elapse.
Qed.

Lemma wf_run inputs s : wf s -> wf (run sections s inputs).
Proof.
  revert s. induction inputs as [|i inputs IH]; intros s H; simpl; auto.
  apply IH, wf_step, H.
Qed.

Lemma wf_mount t0 h0 classes s :
  mount sections t0 h0 classes = Some s -> wf s.
Proof.
  unfold mount. destruct sections; [discriminate|].
  intros [= <-]. unfold wf; simpl.
  repeat split; try discriminate; intros; contradiction.
Qed.

End Invariant.

(** ** The scroll lock *)

Lemma earliest_In limit ts u :
  earliest limit ts = Some u -> In u ts /\ (due u <= limit)%N.
Proof.
  revert u. induction ts as [|t rest IH]; simpl; [discriminate|].
  intros u. destruct (earliest limit rest) as [v|].
  - destruct (IH v eq_refl) as [Hin Hdue].
    destruct ((due t <=? limit)%N) eqn:E1, ((due t <=? due v)%N) eqn:E2;
      simpl; intros [= <-]; auto.
    split; auto. apply N.leb_le, E1.
  - destruct ((due t <=? limit)%N) eqn:E1; intros [= <-].
    split; auto. apply N.leb_le, E1.
Qed.

Lemma earliest_exists limit ts t :
  In t ts -> (due t <= limit)%N -> exists u, earliest limit ts = Some u.
Proof.
  induction ts as [|v rest IH]; simpl; [contradiction|].
  intros [-> | Hin] Hdue.
  - destruct (earliest limit rest) as [w|].
    + destruct (_ && _); eauto.
    + apply N.leb_le in Hdue. rewrite Hdue. eauto.
  - destruct (IH Hin Hdue) as [w ->]. destruct (_ && _); eauto.
Qed.

Lemma clear_shrinks u ts :
  In u ts ->
  (length (List.filter (fun t => negb (Nat.eqb (tid t) (tid u))) ts) < length ts)%nat.
Proof.
  induction ts as [|v rest IH]; simpl; [contradiction|].
  intros [-> | Hin].
  - rewrite Nat.eqb_refl. simpl.
    pose proof (List.filter_length_le
                  (fun t => negb (Nat.eqb (tid t) (tid u))) rest). lia.
  - specialize (IH Hin). destruct (negb _); simpl; lia.
Qed.

Section Lock.
Variable sections : list Element.

Lemma locked_resetWheel d s :
  wf s -> lockedUntil d s -> lockedUntil d (resetWheel s).
Proof.
  unfold wf, lockedUntil, resetWheel. destruct s as [[] []]; simpl.
  intros (Hf & Hu & Hw & Ho) (Ha & t & Hin & Hr & Hc & Hd).
  split; [destruct wheelResetTimer0; exact Ha|].
  exists t. destruct wheelResetTimer0 as [h|]; simpl; auto.
  repeat split; auto.
  apply List.filter_In. split; auto.
  destruct (Nat.eqb (tid t) h) eqn:E; auto.
  apply Nat.eqb_eq in E. destruct (Hw h eq_refl) as [_ Hk].
  rewrite (Hk t Hin E) in Hc. discriminate.
Qed.

Lemma locked_setActive d element s :
  lockedUntil d s -> lockedUntil d (setActive sections element s).
Proof.
  unfold lockedUntil.
  destruct (setActive_timers sections element s)
    as (-> & _ & _ & _ & _ & -> & -> & _).
  auto.
Qed.

Lemma resetWheel_now s : now (win (resetWheel s)) = now (win s).
Proof.
  unfold resetWheel. destruct s as [[] []]; simpl.
  destruct wheelResetTimer0; reflexivity.
Qed.

Lemma locked_step d s i :
  wf s -> lockedUntil d s -> passesTime i = false ->
  lockedUntil d (step sections s i)
  /\ now (win (step sections s i)) = now (win s).
Proof.
  intros Hwf Hl Hi. pose proof Hl as [Ha _].
  destruct i; simpl; try discriminate.
  - unfold handleWheel. rewrite Ha. split; [|reflexivity].
    revert Hl. unfold lockedUntil. destruct s as [[] []]; simpl. auto.
  - unfold handleTouchStart. destruct touches as [|y [|]]; auto.
    split; [|rewrite resetWheel_now; reflexivity].
    apply locked_resetWheel.
    + revert Hwf. unfold wf. destruct s as [[] []]; simpl. auto.
    + revert Hl. unfold lockedUntil. destruct s as [[] []]; simpl. auto.
  - unfold handleTouchMove. rewrite Ha.
    destruct (touchStartY (nav s)); auto.
  - split; [|reflexivity].
    revert Hl. unfold lockedUntil. destruct s as [[] []]; simpl. auto.
  - unfold observerCallback. destruct (mostVisible entries) as [v|]; auto.
    destruct (html (target v)); auto.
    split; [apply locked_setActive, Hl|].
    apply (setActive_timers sections (target v) s).
  - unfold firstFrame. destruct (rafPending (win s)); auto.
    assert (Hl1 : lockedUntil d (on_win (set_rafPending false) s)).
    { revert Hl. unfold lockedUntil. destruct s as [[] []]; simpl. auto. }
    assert (Hg : forall l : list Element,
               let r := match l with
                        | first :: _ =>
                            setActive sections first (on_win (set_rafPending false) s)
                        | [] => on_win (set_rafPending false) s
                        end in
               lockedUntil d r /\ now (win r) = now (win s)).
    { intros [|first ?]; simpl; [auto|].
      split; [apply locked_setActive, Hl1|].
      destruct (setActive_timers sections first (on_win (set_rafPending false) s))
        as (_ & _ & -> & _). reflexivity. }
    apply Hg.
Qed.

Lemma fire_now k limit s : now (win (fire k limit s)) = now (win s).
Proof.
  revert s. induction k as [|k IH]; intros s; simpl; auto.
  destruct (earliest limit (timers (win s))) as [u|]; auto.
  rewrite IH. destruct u as [h due0 []]; simpl.
  - reflexivity.
  - unfold unlockScroll. destruct s as [[] []]; simpl.
    destruct releaseTimer0; reflexivity.
Qed.

Lemma fire_stays_unlocked k limit s :
  isAnimating (nav s) = false -> isAnimating (nav (fire k limit s)) = false.
Proof.
  revert s. induction k as [|k IH]; intros s H; simpl; auto.
  destruct (earliest limit (timers (win s))) as [u|]; auto.
  apply IH. destruct u as [h due0 []]; simpl; auto.
Qed.

Lemma unlockScroll_unlocks s : isAnimating (nav (unlockScroll s)) = false.
Proof.
  unfold unlockScroll. destruct s as [[] []]; simpl.
  destruct releaseTimer0; reflexivity.
Qed.

(** A wheel reset that fires leaves the lock and its release in place. *)
Lemma locked_wheel_fires d s u :
  wf s -> lockedUntil d s -> In u (timers (win s)) ->
  callback u = WheelResetCb ->
  lockedUntil d (runCallback (callback u) (on_win (clearTimeout (tid u)) s)).
Proof.
  intros (Hf & Hu & Hw & Ho) (Ha & t & Hin & Hr & Hc & Hd) Hinu Hcu.
  rewrite Hcu. unfold lockedUntil. destruct s as [[] []]; simpl in *.
  split; auto. exists t. repeat split; auto.
  apply List.filter_In. split; auto.
  destruct (Nat.eqb (tid t) (tid u)) eqn:E; auto.
  apply Nat.eqb_eq in E. rewrite (Hu t u Hin Hinu E) in Hc. congruence.
Qed.

(** While the release is not due, the timer that fires is a wheel reset. *)
Lemma locked_fires_wheel d limit s u :
  wf s -> lockedUntil d s -> (limit < d)%N ->
  earliest limit (timers (win s)) = Some u ->
  In u (timers (win s)) /\ callback u = WheelResetCb.
Proof.
  intros (Hf & Hu & Hw & Ho) (Ha & t & Hin & Hr & Hc & Hd) Hlt He.
  apply earliest_In in He as [Hinu Hdue]. split; auto.
  destruct (callback u) eqn:Hcu; auto. exfalso.
  specialize (Ho u Hinu Hcu). rewrite Hr in Ho. injection Ho as E.
  rewrite (Hu t u Hin Hinu E) in Hd. lia.
Qed.

Lemma locked_fire d k limit s :
  wf s -> lockedUntil d s -> (limit < d)%N -> lockedUntil d (fire k limit s).
Proof.
  revert s. induction k as [|k IH]; intros s Hwf Hl Hlt; simpl; auto.
  destruct (earliest limit (timers (win s))) as [u|] eqn:He; auto.
  destruct (locked_fires_wheel d limit s u Hwf Hl Hlt He) as [Hinu Hcu].
  apply IH; auto.
  - apply wf_runCallback, wf_clearTimeout, Hwf.
  - apply locked_wheel_fires; auto.
Qed.

Lemma fire_unlocks k limit s t :
  wf s -> In t (timers (win s)) -> callback t = ReleaseCb ->
  (due t <= limit)%N -> (length (timers (win s)) <= k)%nat ->
  isAnimating (nav (fire k limit s)) = false.
Proof.
  revert s. induction k as [|k IH]; intros s Hwf Hin Hc Hdue Hlen; simpl.
  - destruct (timers (win s)); [contradiction | simpl in Hlen; lia].
  - destruct (earliest_exists limit _ t Hin Hdue) as [u He]. rewrite He.
    apply earliest_In in He as [Hinu Hdu].
    destruct (callback u) eqn:Hcu.
    + apply IH.
      * apply wf_runCallback, wf_clearTimeout, Hwf.
      * destruct Hwf as (Hf & Hu & Hw & Ho).
        destruct s as [[] []]; simpl in *.
        apply List.filter_In. split; auto.
        destruct (Nat.eqb (tid t) (tid u)) eqn:E; auto.
        apply Nat.eqb_eq in E. rewrite (Hu t u Hin Hinu E) in Hc. congruence.
      * exact Hc.
      * exact Hdue.
      * pose proof (clear_shrinks u _ Hinu).
        destruct s as [[] []]; simpl in *. lia.
    + apply fire_stays_unlocked.
      apply (unlockScroll_unlocks (on_win (clearTimeout (tid u)) s)).
Qed.

Lemma locked_elapse d dt s :
  wf s -> lockedUntil d s -> (now (win s) + dt < d)%N ->
  lockedUntil d (elapse dt s).
Proof.
  intros Hwf Hl Hlt. unfold elapse.
  pose proof (locked_fire d (length (timers (win s))) _ s Hwf Hl Hlt) as H.
  revert H. unfold lockedUntil. destruct (fire _ _ s) as [[] []]; simpl. auto.
Qed.

Lemma elapse_now dt s : now (win (elapse dt s)) = (now (win s) + dt)%N.
Proof. reflexivity. Qed.

Lemma elapse_unlocks d dt s :
  wf s -> lockedUntil d s -> (d <= now (win s) + dt)%N ->
  isAnimating (nav (elapse dt s)) = false.
Proof.
  intros Hwf (Ha & t & Hin & Hr & Hc & Hd) Hle. unfold elapse. simpl.
  apply fire_unlocks with (t := t); auto. lia.
Qed.

Lemma locked_run d inputs s :
  wf s -> lockedUntil d s -> (now (win s) + elapsed inputs < d)%N ->
  lockedUntil d (run sections s inputs)
  /\ now (win (run sections s inputs)) = (now (win s) + elapsed inputs)%N.
Proof.
  revert s. induction inputs as [|i inputs IH]; intros s Hwf Hl Hlt; simpl.
  - split; auto. lia.
  - simpl in Hlt. destruct (passesTime i) eqn:Hi.
    + destruct i; try discriminate. simpl.
      destruct (IH (elapse dt s)) as [H1 H2].
      * apply wf_elapse, Hwf.
      * apply locked_elapse; auto. lia.
      * rewrite elapse_now. lia.
      * split; auto. rewrite H2, elapse_now. lia.
    + destruct (locked_step d s i Hwf Hl Hi) as [H1 H2].
      assert (E : elapsed (i :: inputs) = elapsed inputs)
        by (destruct i; try discriminate; reflexivity).
      simpl in E. rewrite E in *.
      destruct (IH (step sections s i)) as [H3 H4].
      * apply wf_step, Hwf.
      * exact H1.
      * rewrite H2. exact Hlt.
      * split; auto. rewrite H4, H2. reflexivity.
Qed.

Lemma locked_scrollToIndex index s :
  0 <= index < Z.of_nat (length sections) ->
  lockedUntil (now (win s) + SCROLL_LOCK_MS)%N (scrollToIndex sections index s).
Proof.
  intros H. unfold scrollToIndex.
  replace (index <? 0) with false by lia.
  replace (index >=? Z.of_nat (length sections)) with false by lia.
  unfold lockedUntil, resetWheel. destruct s as [[] []]; simpl.
  destruct wheelResetTimer0, releaseTimer0; simpl; split; auto;
    eexists; (split; [apply List.in_app_iff; right; left; reflexivity|]);
    simpl; auto.
Qed.

Lemma scrollToIndex_now index s :
  now (win (scrollToIndex sections index s)) = now (win s).
Proof.
  unfold scrollToIndex.
  destruct ((index <? 0) || (index >=? Z.of_nat (length sections))); auto.
  unfold resetWheel. destruct s as [[] []]; simpl.
  destruct wheelResetTimer0, releaseTimer0; reflexivity.
Qed.

Lemma run_snoc s inputs i :
  run sections s (inputs ++ [i]) = step sections (run sections s inputs) i.
Proof. unfold run. rewrite List.fold_left_app. reflexivity. Qed.

(** C2. While the lock flag is set a wheel event is consumed (only
    [preventDefault] is called) and a touch-move is ignored, neither
    changing the accumulator, the active index or anything else of the
    navigator; and the lock that [scrollToIndex] sets, in any state the
    mounted component can reach, holds until 900 ms have passed and is
    released when they have, whatever inputs arrive meanwhile. *)
Theorem lock_suppresses_input_and_expires
    (t0 : N) (h0 : nat) (classes : list bool) (s0 : State)
    (prefix : list Input) (index : Z) :
  mount sections t0 h0 classes = Some s0 ->
  0 <= index < Z.of_nat (length sections) ->
  let s1 := scrollToIndex sections index (run sections s0 prefix) in
  (forall s deltaY,
      isAnimating (nav s) = true ->
      handleWheel sections deltaY s = preventDefault s
      /\ nav (handleWheel sections deltaY s) = nav s
      /\ scrolled (win (handleWheel sections deltaY s)) = scrolled (win s))
  /\ (forall s touches,
         isAnimating (nav s) = true ->
         handleTouchMove sections touches s = s)
  /\ (forall inputs,
         (elapsed inputs < SCROLL_LOCK_MS)%N ->
         isAnimating (nav (run sections s1 inputs)) = true)
  /\ (forall inputs dt,
         (elapsed inputs < SCROLL_LOCK_MS)%N ->
         (SCROLL_LOCK_MS <= elapsed inputs + dt)%N ->
         isAnimating (nav (run sections s1 (inputs ++ [Elapse dt]))) = false).
Proof.
  intros Hm Hi s1.
  assert (Hwf : wf s1) by (apply wf_scrollToIndex, wf_run, (wf_mount _ _ _ _ _ Hm)).
  assert (Hl : lockedUntil (now (win s1) + SCROLL_LOCK_MS)%N s1).
  { unfold s1 at 1. rewrite scrollToIndex_now.
    apply locked_scrollToIndex, Hi. }
  repeat split.
  - unfold handleWheel. rewrite H. reflexivity.
  - unfold handleWheel. rewrite H. reflexivity.
  - unfold handleWheel. rewrite H. reflexivity.
  - intros s touches Ha. unfold handleTouchMove. rewrite Ha.
    destruct (touchStartY (nav s)); reflexivity.
  - intros inputs Hlt.
    destruct (locked_run _ inputs s1 Hwf Hl) as [[Ha _] _]; [lia | exact Ha].
  - intros inputs dt Hlt Hge. rewrite run_snoc. simpl.
    destruct (locked_run _ inputs s1 Hwf Hl) as [Hl' Hnow]; [lia|].
    apply elapse_unlocks with (d := (now (win s1) + SCROLL_LOCK_MS)%N); auto.
    + apply wf_run, Hwf.
    + rewrite Hnow. lia.
Qed.

End Lock.

(** ** What each handler leaves alone *)

Lemma sameActive_refl s : sameActive s s.
Proof. unfold sameActive. auto. Qed.

Lemma sameActive_trans s1 s2 s3 :
  sameActive s1 s2 -> sameActive s2 s3 -> sameActive s1 s3.
Proof. unfold sameActive. intuition congruence. Qed.

Lemma sameActive_resetWheel s : sameActive s (resetWheel s).
Proof.
  unfold sameActive, resetWheel. destruct s as [[] []]; simpl.
  destruct wheelResetTimer0; auto.
Qed.

Lemma sameActive_unlockScroll s : sameActive s (unlockScroll s).
Proof.
  unfold sameActive, unlockScroll. destruct s as [[] []]; simpl.
  destruct releaseTimer0; auto.
Qed.

Lemma sameActive_scheduleWheelReset s : sameActive s (scheduleWheelReset s).
Proof.
  unfold sameActive, scheduleWheelReset. destruct s as [[] []]; simpl.
  destruct wheelResetTimer0; auto.
Qed.

Lemma sameActive_preventDefault s : sameActive s (preventDefault s).
Proof. unfold sameActive. auto. Qed.

Lemma sameActive_runCallback cb s : sameActive s (runCallback cb s).
Proof.
  destruct cb; simpl; [unfold sameActive; auto | apply sameActive_unlockScroll].
Qed.

Lemma sameActive_fire k limit s : sameActive s (fire k limit s).
Proof.
  revert s. induction k as [|k IH]; intros s; simpl.
  - apply sameActive_refl.
  - destruct (earliest limit (timers (win s))) as [u|]; [|apply sameActive_refl].
    eapply sameActive_trans; [|apply IH].
    eapply sameActive_trans; [|apply sameActive_runCallback].
    unfold sameActive; auto.
Qed.

Section Frames.
Variable sections : list Element.

Lemma sameActive_scrollToIndex index s :
  sameActive s (scrollToIndex sections index s).
Proof.
  unfold scrollToIndex.
  destruct ((index <? 0) || (index >=? Z.of_nat (length sections)));
    [apply sameActive_refl|].
  unfold sameActive, resetWheel. destruct s as [[] []]; simpl.
  destruct wheelResetTimer0, releaseTimer0; auto.
Qed.

Lemma sameActive_handleWheel deltaY s :
  sameActive s (handleWheel sections deltaY s).
Proof.
  unfold handleWheel.
  destruct (isAnimating (nav s)); [apply sameActive_preventDefault|].
  set (s1 := on_nav _ s).
  assert (H1 : sameActive s (scheduleWheelReset s1)).
  { eapply sameActive_trans; [|apply sameActive_scheduleWheelReset].
    unfold sameActive; auto. }
  destruct (Z.abs _ <? WHEEL_TRIGGER); [exact H1|].
  eapply sameActive_trans; [|apply sameActive_resetWheel].
  destruct (_ && _); [eapply sameActive_trans; [|apply sameActive_scrollToIndex]|];
    (eapply sameActive_trans; [exact H1 | apply sameActive_preventDefault]).
Qed.

Lemma sameActive_handleTouchStart touches s :
  sameActive s (handleTouchStart touches s).
Proof.
  unfold handleTouchStart. destruct touches as [|y [|]]; try apply sameActive_refl.
  eapply sameActive_trans; [|apply sameActive_resetWheel].
  unfold sameActive; auto.
Qed.

Lemma sameActive_handleTouchMove touches s :
  sameActive s (handleTouchMove sections touches s).
Proof.
  unfold handleTouchMove.
  destruct (touchStartY (nav s)); [|apply sameActive_refl].
  destruct (isAnimating (nav s)); [apply sameActive_refl|].
  destruct touches as [|currentY ?]; [apply sameActive_refl|].
  destruct (Z.abs _ <? TOUCH_TRIGGER); [apply sameActive_refl|].
  eapply sameActive_trans with (s2 := preventDefault s);
    [apply sameActive_preventDefault|].
  destruct (_ && _).
  - eapply sameActive_trans; [apply sameActive_scrollToIndex|].
    unfold sameActive; auto.
  - unfold sameActive; auto.
Qed.

Lemma sameActive_step s i :
  notifies i = false -> sameActive s (step sections s i).
Proof.
  destruct i; simpl; try discriminate; intros _.
  - apply sameActive_handleWheel.
  - apply sameActive_handleTouchStart.
  - apply sameActive_handleTouchMove.
  - unfold sameActive; auto.
  - unfold elapse. eapply sameActive_trans; [apply sameActive_fire|].
    unfold sameActive; auto.
Qed.

(** C6. [scrollToIndex] with an index below 0 or not below the number of
    sections returns the state it was given: the closure variables (lock
    flag, accumulator, both timer handles, active index and side) and the
    browser side (no timer set or cleared, no scroll request) are those of
    before. *)
Theorem scrollToIndex_out_of_range (s : State) (index : Z) :
  index < 0 \/ Z.of_nat (length sections) <= index ->
  scrollToIndex sections index s = s.
Proof.
  intros H. unfold scrollToIndex.
  destruct (index <? 0) eqn:E1; [reflexivity|].
  destruct (index >=? Z.of_nat (length sections)) eqn:E2; [reflexivity|].
  lia.
Qed.

(** C10. For an index in range [scrollToIndex] rewrites four closure
    variables and no other: the accumulator (0), the wheel timer handle
    (none), the lock flag (set) and the release handle (the new timer);
    the active index, the active side, the classes and the published
    events are those of before. No input other than a visibility
    notification or the first frame, the two that call [setActive],
    changes them either. *)
Theorem scrollToIndex_frame (s : State) (index : Z) :
  0 <= index < Z.of_nat (length sections) ->
  let s' := scrollToIndex sections index s in
  nav s' =
    set_releaseTimer (Some (nextTimer (win s)))
      (set_isAnimating true
         (set_wheelResetTimer None (set_wheelDelta 0 (nav s))))
  /\ activeIndex (nav s') = activeIndex (nav s)
  /\ activeSide (nav s') = activeSide (nav s)
  /\ touchStartY (nav s') = touchStartY (nav s)
  /\ dispatched (win s') = dispatched (win s)
  /\ isActiveClass (win s') = isActiveClass (win s)
  /\ (forall st i,
         notifies i = false ->
         activeIndex (nav (step sections st i)) = activeIndex (nav st)
         /\ activeSide (nav (step sections st i)) = activeSide (nav st)
         /\ dispatched (win (step sections st i)) = dispatched (win st)).
Proof.
  intros H s'.
  assert (E : nav s' =
              set_releaseTimer (Some (nextTimer (win s)))
                (set_isAnimating true
                   (set_wheelResetTimer None (set_wheelDelta 0 (nav s))))).
  { unfold s', scrollToIndex.
    replace (index <? 0) with false by lia.
    replace (index >=? Z.of_nat (length sections)) with false by lia.
    unfold resetWheel. destruct s as [[] []]; simpl.
    destruct wheelResetTimer0, releaseTimer0; reflexivity. }
  destruct (sameActive_scrollToIndex index s) as (H1 & H2 & H3 & H4).
  split; [exact E|]. rewrite E. repeat split; auto.
  - apply (sameActive_step st i H0).
  - apply (sameActive_step st i H0).
  - apply (sameActive_step st i H0).
Qed.

(** C7. [handleWheel] issues no scroll request and leaves the lock and its
    timer alone while the magnitude of the accumulator, the new delta
    added, is below 80 (the sum is then what the accumulator holds). When the component is not locked and the magnitude
    reaches 80, the accumulator is 0 and no wheel reset is pending when the
    handler returns, whether the target was in bounds (one scroll request,
    for the target) or not (none). *)
Theorem wheel_trigger_threshold (s : State) (deltaY : Z) :
  let s' := handleWheel sections deltaY s in
  let total := wheelDelta (nav s) + deltaY in
  let target := activeIndex (nav s) + (if total >? 0 then 1 else -1) in
  (Z.abs total < WHEEL_TRIGGER ->
   scrolled (win s') = scrolled (win s)
   /\ isAnimating (nav s') = isAnimating (nav s)
   /\ releaseTimer (nav s') = releaseTimer (nav s)
   /\ (isAnimating (nav s) = false -> wheelDelta (nav s') = total))
  /\ (isAnimating (nav s) = false ->
      WHEEL_TRIGGER <= Z.abs total ->
      wheelDelta (nav s') = 0
      /\ wheelResetTimer (nav s') = None
      /\ scrolled (win s') =
         scrolled (win s)
         ++ (if (target >=? 0) && (target <? Z.of_nat (length sections))
             then [target] else [])).
Proof.
  intros s' total target. subst s' total target.
  unfold handleWheel, scheduleWheelReset, scrollToIndex, resetWheel,
    preventDefault, WHEEL_TRIGGER.
  destruct s as [[ai an wd wt rt ty sd] w]; simpl.
  destruct an; simpl.
  - split; [intros _; repeat split; discriminate | discriminate].
  - set (target := ai + (if wd + deltaY >? 0 then 1 else -1)).
    destruct wt; simpl; fold target;
      destruct (Z.abs (wd + deltaY) <? 80) eqn:E;
      (split; [intros ? | intros _ ?]; try lia); simpl; auto;
      destruct (target >=? 0) eqn:E1;
      destruct (target <? Z.of_nat (length sections)) eqn:E2; simpl;
      try (replace (target <? 0) with false by lia);
      try (replace (target >=? Z.of_nat (length sections)) with false by lia);
      simpl; destruct rt; simpl; rewrite ?List.app_nil_r; auto.
Qed.

Lemma setActive_dispatched element s :
  dispatched (win (setActive sections element s)) =
  dispatched (win s)
  ++ match sectionId element with
     | Some (String a rest) =>
         [{| id := String a rest;
             side := activeSide (nav (setActive sections element s)) |}]
     | _ => []
     end.
Proof.
  unfold setActive.
  destruct (sectionId element) as [[|a rest]|]; simpl;
    rewrite ?List.app_nil_r; reflexivity.
Qed.

Lemma setActive_publishes_once element s :
  (length (dispatched (win (setActive sections element s)))
   <= S (length (dispatched (win s))))%nat.
Proof.
  rewrite setActive_dispatched, List.length_app.
  destruct (sectionId element) as [[|a rest]|]; simpl; lia.
Qed.

Lemma step_publishes_once s i :
  (length (dispatched (win (step sections s i)))
   <= length (dispatched (win s)) + (if notifies i then 1 else 0))%nat.
Proof.
  destruct (notifies i) eqn:E.
  - destruct i; try discriminate; simpl.
    + unfold observerCallback. destruct (mostVisible entries) as [v|]; [|lia].
      destruct (html (target v)); [|lia].
      pose proof (setActive_publishes_once (target v) s). lia.
    + unfold firstFrame. destruct (rafPending (win s)); [|lia].
      assert (Hl : forall l : list Element,
                 (length (dispatched (win
                    match l with
                    | first :: _ =>
                        setActive sections first (on_win (set_rafPending false) s)
                    | [] => on_win (set_rafPending false) s
                    end))
                  <= length (dispatched (win s)) + 1)%nat).
      { intros [|first ?]; simpl; [lia|].
        pose proof (setActive_publishes_once first
                      (on_win (set_rafPending false) s)) as H.
        simpl in H. lia. }
      apply Hl.
  - destruct (sameActive_step s i E) as (_ & _ & -> & _). lia.
Qed.

(** C1, as the code has it. The observer callback publishes at most one
    event per notification, and exactly one, for the most visible
    intersecting element, whenever that element is an [HTMLElement] with a
    non-empty section id: whether the active index changes plays no part.
    Over a sequence of inputs the events published are at most as many as
    the inputs that notify (visibility notifications and the first
    frame). *)
Theorem observer_publishes_per_notification (s : State) (entries : list Entry) :
  let s' := observerCallback sections entries s in
  (length (dispatched (win s')) <= S (length (dispatched (win s))))%nat
  /\ (forall v a rest,
         mostVisible entries = Some v ->
         html (target v) = true ->
         sectionId (target v) = Some (String a rest) ->
         dispatched (win s') =
         dispatched (win s)
         ++ [{| id := String a rest; side := activeSide (nav s') |}])
  /\ (forall inputs,
         (length (dispatched (win (run sections s inputs)))
          <= length (dispatched (win s))
             + length (List.filter notifies inputs))%nat).
Proof.
  intros s'. split; [|split].
  - pose proof (step_publishes_once s (Intersection entries)) as H.
    simpl in H. fold s' in H. lia.
  - intros v a rest Hv Hh Hid. unfold s', observerCallback.
    rewrite Hv, Hh, setActive_dispatched, Hid. reflexivity.
  - intros inputs. clear s' entries. revert s.
    induction inputs as [|i inputs IH]; intros s; simpl; [lia|].
    specialize (IH (step sections s i)).
    pose proof (step_publishes_once s i) as H.
    destruct (notifies i); simpl; lia.
Qed.

End Frames.

(** ** The page of three sections *)

(** C1, as stated, fails: with the first section active after the first
    frame, a notification that reports this same section as the most
    visible one leaves the active index at 0 and publishes a second
    event. *)
Lemma active_section_notification_publishes_again :
  let s := run page mounted [FirstFrame] in
  let s' := step page s (Intersection [sees about 0.9]) in
  mostVisible [sees about 0.9] = Some (sees about 0.9)
  /\ nth_error page (Z.to_nat (activeIndex (nav s))) = Some about
  /\ activeIndex (nav s') = activeIndex (nav s)
  /\ dispatched (win s) = [{| id := "about"; side := SideLeft |}]
  /\ dispatched (win s') =
     [{| id := "about"; side := SideLeft |};
      {| id := "about"; side := SideLeft |}].
Proof. vm_compute. repeat split. Qed.

(** A wheel burst of 50 then 40 on the first section asks for the second
    one and locks; the burst that follows while locked asks for nothing. *)
Example wheel_burst_scrolls_once :
  let s := run page mounted [FirstFrame; Wheel 50; Wheel 40; Wheel 90; Wheel 90] in
  scrolled (win s) = [1]
  /\ isAnimating (nav s) = true
  /\ wheelDelta (nav s) = 0
  /\ timers (win s) = [{| tid := 3; due := 900; callback := ReleaseCb |}].
Proof. vm_compute. repeat split. Qed.

(** A drag from 500 to 420 asks for the next section once; moving on
    without a new touch start asks for nothing more, locked or not. *)
Example drag_scrolls_once :
  let inputs := [FirstFrame; TouchStart [500]; TouchMove [420]; TouchMove [300]] in
  scrolled (win (run page mounted inputs)) = [1]
  /\ scrolled (win (run page mounted (inputs ++ [Elapse 900; TouchMove [200]]))) = [1].
Proof. vm_compute. repeat split. Qed.

(** The accumulator is forgotten after 220 ms without a wheel event. *)
Example wheel_accumulator_decays :
  wheelDelta (nav (run page mounted [Wheel 50; Elapse 219])) = 50
  /\ wheelDelta (nav (run page mounted [Wheel 50; Elapse 220])) = 0.
Proof. vm_compute. repeat split. Qed.

(** The most visible of the intersecting entries, the first on a tie. *)
Example mostVisible_picks_highest_ratio :
  mostVisible [sees about 0.5; sees tech 0.9; sees events 0.9] = Some (sees tech 0.9)
  /\ mostVisible
       [{| target := about; isIntersecting := false; intersectionRatio := 1 |};
        sees events 0.5] = Some (sees events 0.5)
  /\ mostVisible [] = None.
Proof. vm_compute. repeat split. Qed.

Lemma observer_publishes_per_notification_witness :
  dispatched (win (observerCallback page [sees tech 0.75; sees events 0.9] mounted))
  = [{| id := "events"; side := SideLeft |}].
Proof.
  destruct (observer_publishes_per_notification page mounted
              [sees tech 0.75; sees events 0.9]) as (_ & H & _).
  apply (H (sees events 0.9) "e"%char "vents"%string); reflexivity.
Defined.

Lemma lock_suppresses_input_and_expires_witness :
  let locked := scrollToIndex page 1 (run page mounted [FirstFrame]) in
  let busy := [Wheel 100; Elapse 500; TouchStart [500]; TouchMove [300]; Elapse 399] in
  isAnimating (nav (run page locked busy)) = true
  /\ isAnimating (nav (run page locked (busy ++ [Elapse 1]))) = false.
Proof.
  intros locked busy.
  destruct (lock_suppresses_input_and_expires page 0 1 [false; false; false]
              mounted [FirstFrame] 1 eq_refl)
    as (_ & _ & Hheld & Hreleased).
  - simpl. lia.
  - split.
    + apply Hheld. reflexivity.
    + apply Hreleased; [reflexivity | discriminate].
Defined.

Lemma scrollToIndex_out_of_range_witness :
  scrollToIndex page 3 mounted = mounted
  /\ scrollToIndex page (-1) mounted = mounted.
Proof.
  split; apply scrollToIndex_out_of_range; simpl; lia.
Defined.

Lemma scrollToIndex_frame_witness :
  activeIndex (nav (scrollToIndex page 2 mounted)) = 0
  /\ dispatched (win (scrollToIndex page 2 mounted)) = [].
Proof.
  destruct (scrollToIndex_frame page mounted 2) as (_ & H1 & _ & _ & H2 & _).
  - simpl. lia.
  - split; [exact H1 | exact H2].
Defined.

Lemma wheel_trigger_threshold_witness :
  scrolled (win (handleWheel page 50 mounted)) = []
  /\ wheelDelta (nav (handleWheel page 90 mounted)) = 0
  /\ wheelDelta (nav (handleWheel page (-90) mounted)) = 0.
Proof.
  split; [|split].
  - destruct (wheel_trigger_threshold page mounted 50) as [H _].
    apply H. unfold WHEEL_TRIGGER. simpl. lia.
  - destruct (wheel_trigger_threshold page mounted 90) as [_ H].
    apply H; [reflexivity | unfold WHEEL_TRIGGER; simpl; lia].
  - destruct (wheel_trigger_threshold page mounted (-90)) as [_ H].
    apply H; [reflexivity | unfold WHEEL_TRIGGER; simpl; lia].
Defined.


End NavigatorFacts.

(** * Properties of the canvas *)

Module CanvasFacts.
Import Canvas.

(** ** Star mask *)

Section Stars.
Variable random : nat -> Q.

Lemma writeStar_length idx mask : length (writeStar idx mask) = length mask.
Proof.
  unfold writeStar. destruct (idx <? 0); [reflexivity | apply length_insert].
Qed.

Lemma sampleStars_spec count total mask k :
  length (fst (sampleStars random count total mask k)) = length mask
  /\ snd (sampleStars random count total mask k) = (k + count)%nat.
Proof.
  revert mask k. induction count as [|count IH]; intros mask k;
    cbn [sampleStars fst snd].
  - split; [reflexivity | lia].
  - destruct (IH (writeStar (Qfloor (random k * inject_Z (Z.of_nat total))) mask)
                 (S k)) as [H1 H2].
    rewrite H1, H2, writeStar_length. split; [reflexivity | lia].
Qed.

Lemma regenerateStars_fields cols rows c :
  ripples (regenerateStars random cols rows c) = ripples c
  /\ gridMeta (regenerateStars random cols rows c) = gridMeta c
  /\ activeSection (regenerateStars random cols rows c) = activeSection c.
Proof.
  unfold regenerateStars. destruct (sampleStars _ _ _ _ _). auto.
Qed.

Lemma handleResize_fields innerWidth innerHeight c :
  ripples (handleResize random innerWidth innerHeight c) = ripples c
  /\ activeSection (handleResize random innerWidth innerHeight c)
     = activeSection c.
Proof.
  unfold handleResize.
  destruct (regenerateStars_fields (cellsAcross innerWidth)
              (cellsAcross innerHeight)
              (set_gridMeta
                 {| cols := cellsAcross innerWidth;
                    rows := cellsAcross innerHeight; cell := CELL_SIZE |} c))
    as (-> & _ & ->).
  split; reflexivity.
Qed.

(** C9. [regenerateStars cols rows] leaves a mask of exactly [cols * rows]
    cells and draws [max(80, floor(cols * rows * 0.012))] random numbers,
    so at least 80 however small the grid; [handleResize] does so for the
    grid it computes from the window, [ceil(width / 18)] by
    [ceil(height / 18)]. *)
Theorem regenerateStars_mask (cols rows : nat) (c : State) :
  let c' := regenerateStars random cols rows c in
  let total := (cols * rows)%nat in
  length (starMask c') = total
  /\ drawn c' = (drawn c + starCount total)%nat
  /\ Z.of_nat (starCount total) = Z.max 80 (Z.of_nat total * 12 / 1000)
  /\ (80 <= starCount total)%nat
  /\ (forall innerWidth innerHeight c0,
         let c1 := handleResize random innerWidth innerHeight c0 in
         gridMeta c1 =
           {| Canvas.cols := cellsAcross innerWidth;
              Canvas.rows := cellsAcross innerHeight;
              cell := CELL_SIZE |}
         /\ length (starMask c1)
            = (cellsAcross innerWidth * cellsAcross innerHeight)%nat
         /\ (drawn c0 + 80 <= drawn c1)%nat).
Proof.
  intros c' total.
  assert (Hcount : Z.of_nat (starCount total) = Z.max 80 (Z.of_nat total * 12 / 1000)).
  { unfold starCount. rewrite Z2Nat.id by lia. reflexivity. }
  assert (Hregen : forall k n (c0 : State),
             length (starMask (regenerateStars random k n c0)) = (k * n)%nat
             /\ drawn (regenerateStars random k n c0)
                = (drawn c0 + starCount (k * n))%nat).
  { intros k n c0. unfold regenerateStars.
    pose proof (sampleStars_spec (starCount (k * n)) (k * n)
                  (replicate (k * n) 0%N) (drawn c0)) as [H1 H2].
    destruct (sampleStars _ _ _ _ _) as [mask' k']. simpl in *.
    rewrite H1, H2, length_replicate. auto. }
  assert (H80 : forall n, (80 <= starCount n)%nat).
  { intros n. unfold starCount.
    generalize (Qfloor (inject_Z (Z.of_nat n) * STAR_DENSITY)). lia. }
  destruct (Hregen cols rows c) as [H1 H2].
  split; [exact H1|]. split; [exact H2|]. split; [exact Hcount|].
  split; [apply H80|].
  intros innerWidth innerHeight c0 c1. unfold c1, handleResize.
  set (g := {| Canvas.cols := cellsAcross innerWidth;
               Canvas.rows := cellsAcross innerHeight; cell := CELL_SIZE |}).
  destruct (Hregen (cellsAcross innerWidth) (cellsAcross innerHeight)
              (set_gridMeta g c0)) as [H3 H4].
  destruct (regenerateStars_fields (cellsAcross innerWidth)
              (cellsAcross innerHeight) (set_gridMeta g c0)) as (_ & H5 & _).
  split; [rewrite H5; reflexivity|]. split; [exact H3|].
  rewrite H4. simpl.
  specialize (H80 (cellsAcross innerWidth * cellsAcross innerHeight)%nat). lia.
Qed.

Lemma starCount_small :
  starCount 4 = 80%nat /\ starCount (Z.to_nat 7000) = 84%nat.
Proof. split; reflexivity. Qed.

Lemma cellsAcross_rounds_up :
  cellsAcross 36 = 2%nat /\ cellsAcross 37 = 3%nat /\ cellsAcross 0 = 0%nat.
Proof. repeat split; reflexivity. Qed.

(** ** Ripples *)

Lemma pushRipple_ripples originX originY strength now c :
  ripples (pushRipple originX originY strength now c) =
  if (MAX_RIPPLES <=? length (ripples c))%nat
  then tl (ripples c) ++ [rippleAt originX originY strength now]
  else ripples c ++ [rippleAt originX originY strength now].
Proof.
  unfold pushRipple. fold (rippleAt originX originY strength now).
  destruct (Nat.ltb_spec MAX_RIPPLES
              (length (ripples c ++ [rippleAt originX originY strength now])))
    as [H1 | H1];
    destruct (Nat.leb_spec MAX_RIPPLES (length (ripples c))) as [H2 | H2];
    rewrite List.length_app in H1; unfold MAX_RIPPLES in *; simpl in *;
    try lia; try reflexivity.
  destruct (ripples c); simpl in *; [lia | reflexivity].
Qed.

Lemma pushRipple_fields originX originY strength now c :
  activeSection (pushRipple originX originY strength now c) = activeSection c
  /\ starMask (pushRipple originX originY strength now c) = starMask c
  /\ gridMeta (pushRipple originX originY strength now c) = gridMeta c.
Proof. unfold pushRipple. destruct (_ <? _)%nat; auto. Qed.

Lemma handleSectionChange_received a rest sd w h now c :
  handleSectionChange (Some {| id := Some (String a rest); side := sd |}) w h now c
  = pushRipple
      (if String.eqb
            (if String.eqb (match sd with Some v => v | None => "left" end) "left"
             then "right" else "left") "left"
       then IZR w * 0.18 else IZR w * 0.82)%R
      (IZR h * 0.45) 0.65 now (setActiveSection (String a rest) c).
Proof. reflexivity. Qed.

Lemma handleSectionChange_ripples detail w h now c :
  ripples (handleSectionChange detail w h now c) = ripples c
  \/ exists originX,
       ripples (handleSectionChange detail w h now c)
       = ripples (pushRipple originX (IZR h * 0.45) 0.65 now c).
Proof.
  destruct detail as [[[[|a rest]|] sd]|];
    [left; reflexivity | right | left; reflexivity | left; reflexivity].
  eexists. rewrite handleSectionChange_received, !pushRipple_ripples.
  reflexivity.
Qed.

Lemma ripplesOk_pushRipple originX originY strength now c :
  ripplesOk c -> ripplesOk (pushRipple originX originY strength now c).
Proof.
  intros [Hlen Hd]. unfold ripplesOk. rewrite pushRipple_ripples.
  destruct (MAX_RIPPLES <=? length (ripples c))%nat eqn:E.
  - split.
    + rewrite List.length_app. simpl.
      destruct (ripples c); simpl in *; [discriminate | lia].
    + apply List.Forall_app. split; [|repeat constructor].
      destruct (ripples c); simpl; [constructor | inversion Hd; assumption].
  - apply Nat.leb_gt in E. split.
    + rewrite List.length_app. simpl. lia.
    + apply List.Forall_app. split; [assumption | repeat constructor].
Qed.

Lemma ripplesOk_same c c' : ripples c' = ripples c -> ripplesOk c -> ripplesOk c'.
Proof. unfold ripplesOk. intros ->. auto. Qed.

Lemma ripplesOk_step c i : ripplesOk c -> ripplesOk (step random c i).
Proof.
  intros H. destruct i; simpl.
  - apply ripplesOk_same with (c := c); auto.
    unfold handleResize.
    destruct (regenerateStars_fields (cellsAcross innerWidth)
                (cellsAcross innerHeight)
                (set_gridMeta
                   {| cols := cellsAcross innerWidth;
                      rows := cellsAcross innerHeight; cell := CELL_SIZE |} c))
      as (-> & _). reflexivity.
  - destruct (handleSectionChange_ripples detail clientWidth clientHeight now c)
      as [E | [originX E]].
    + apply ripplesOk_same with (c := c); auto.
    + eapply ripplesOk_same; [exact E|]. apply ripplesOk_pushRipple, H.
  - exact H.
Qed.

Lemma ripplesOk_run inputs c : ripplesOk c -> ripplesOk (run random c inputs).
Proof.
  revert c. induction inputs as [|i inputs IH]; intros c H; simpl; auto.
  apply IH, ripplesOk_step, H.
Qed.

Lemma ripplesOk_mount hasCanvas hasContext iw ih cw ch now c :
  mount random hasCanvas hasContext iw ih cw ch now = Some c -> ripplesOk c.
Proof.
  unfold mount. destruct hasCanvas, hasContext; simpl; try discriminate.
  intros [= <-]. apply ripplesOk_pushRipple.
  apply ripplesOk_same with (c := initialState).
  - unfold handleResize. simpl.
    destruct (regenerateStars_fields (cellsAcross iw) (cellsAcross ih)
                (set_gridMeta
                   {| cols := cellsAcross iw; rows := cellsAcross ih;
                      cell := CELL_SIZE |} initialState)) as (-> & _).
    reflexivity.
  - split; simpl; [unfold MAX_RIPPLES; lia | constructor].
Qed.

(** C4. In every state the mounted component reaches, an insertion leaves
    at most 6 ripples; made when 6 are held, it drops the oldest one (the
    head), whatever its age, and appends the new one; made when fewer are
    held, it only appends. *)
Theorem ripples_bounded_fifo
    (hasCanvas hasContext : bool) (innerWidth innerHeight : nat)
    (clientWidth clientHeight : Z) (now0 : R) (c0 : State)
    (inputs : list Input) (originX originY strength now : R) :
  mount random hasCanvas hasContext innerWidth innerHeight
        clientWidth clientHeight now0 = Some c0 ->
  let c := run random c0 inputs in
  let c' := pushRipple originX originY strength now c in
  (length (ripples c') <= MAX_RIPPLES)%nat
  /\ (length (ripples c) = MAX_RIPPLES ->
      ripples c' = tl (ripples c) ++ [rippleAt originX originY strength now])
  /\ (length (ripples c) < MAX_RIPPLES ->
      ripples c' = ripples c ++ [rippleAt originX originY strength now])%nat.
Proof.
  intros Hm c c'.
  assert (Hok : ripplesOk c) by (apply ripplesOk_run, (ripplesOk_mount _ _ _ _ _ _ _ _ Hm)).
  split; [apply (ripplesOk_pushRipple originX originY strength now c Hok)|].
  unfold c'. rewrite pushRipple_ripples. split; intros H.
  - rewrite H, Nat.leb_refl. reflexivity.
  - apply Nat.leb_gt in H. rewrite H. reflexivity.
Qed.

(** C3, as the code has it. Rendering a frame leaves the collection as it
    is, whatever the ages of its ripples; a ripple of the collection is
    still in it after an input unless it is the oldest one, 6 ripples are
    held, and the input is a section change (which inserts). *)
Theorem ripples_leave_by_eviction_only (c : State) (i : Input) (r : Ripple) :
  In r (ripples c) ->
  (forall timestamp w h,
      ripples (fst (renderFrame timestamp w h c)) = ripples c)
  /\ (In r (ripples (step random c i))
      \/ (hd_error (ripples c) = Some r
          /\ (MAX_RIPPLES <= length (ripples c))%nat
          /\ exists detail w h now, i = SectionChange detail w h now)).
Proof.
  intros Hin. split; [reflexivity|].
  destruct i; simpl.
  - left. unfold handleResize.
    destruct (regenerateStars_fields (cellsAcross innerWidth)
                (cellsAcross innerHeight)
                (set_gridMeta
                   {| cols := cellsAcross innerWidth;
                      rows := cellsAcross innerHeight; cell := CELL_SIZE |} c))
      as (-> & _). exact Hin.
  - destruct (handleSectionChange_ripples detail clientWidth clientHeight now c)
      as [E | [originX E]]; rewrite E; [left; exact Hin|].
    rewrite pushRipple_ripples.
    destruct (Nat.leb_spec MAX_RIPPLES (length (ripples c))) as [Hfull | Hroom].
    + destruct (ripples c) as [|oldest rest]; [contradiction|].
      destruct Hin as [-> | Hin].
      * right. split; [reflexivity|]. split; [exact Hfull|]. eauto.
      * left. simpl. apply List.in_app_iff. left. exact Hin.
    + left. apply List.in_app_iff. left. exact Hin.
  - left. exact Hin.
Qed.

Lemma temporalDecay_expired r age :
  (0 < duration r)%R -> (duration r <= age)%R -> temporalDecay r age = 0%R.
Proof.
  intros Hd Hage. unfold temporalDecay. apply Rmax_left.
  assert (1 <= age / duration r)%R.
  { unfold Rdiv. rewrite <- (Rinv_r (duration r)) by lra.
    apply Rmult_le_compat_r; [left; apply Rinv_0_lt_compat, Hd | exact Hage]. }
  lra.
Qed.

Lemma temporalDecay_nonneg r age : (0 <= temporalDecay r age)%R.
Proof. unfold temporalDecay. apply Rmax_l. Qed.

Lemma temporalDecay_decreasing r age age' :
  (0 < duration r)%R -> (age <= age')%R ->
  (temporalDecay r age' <= temporalDecay r age)%R.
Proof.
  intros Hd Hle. unfold temporalDecay.
  apply Rle_max_compat_l.
  assert (age / duration r <= age' / duration r)%R.
  { unfold Rdiv. apply Rmult_le_compat_r;
      [left; apply Rinv_0_lt_compat, Hd | exact Hle]. }
  lra.
Qed.

Lemma rippleTerm_expired timestamp px py cell r :
  (0 < duration r)%R ->
  (duration r <= (timestamp - start r) / 1000)%R ->
  rippleTerm timestamp px py cell r = 0%R.
Proof.
  intros Hd Hage. unfold rippleTerm, attenuation.
  rewrite (temporalDecay_expired r _ Hd Hage). ring.
Qed.

(** C5. For every ripple of a state the mounted component reaches: once
    its age is at least its duration, what it adds to the value of any
    cell is 0 (the value is left as it was); its temporal decay factor
    is never negative, never grows with age, and is 0 from the duration
    on. *)
Theorem expired_ripple_contributes_nothing
    (hasCanvas hasContext : bool) (innerWidth innerHeight : nat)
    (clientWidth clientHeight : Z) (now0 : R) (c0 : State)
    (inputs : list Input) (r : Ripple) :
  mount random hasCanvas hasContext innerWidth innerHeight
        clientWidth clientHeight now0 = Some c0 ->
  In r (ripples (run random c0 inputs)) ->
  (forall timestamp px py cell value,
      (duration r <= (timestamp - start r) / 1000)%R ->
      rippleTerm timestamp px py cell r = 0%R
      /\ (value + rippleTerm timestamp px py cell r = value)%R)
  /\ (forall age, (0 <= temporalDecay r age)%R)
  /\ (forall age age',
         (age <= age')%R -> (temporalDecay r age' <= temporalDecay r age)%R)
  /\ (forall age, (duration r <= age)%R -> temporalDecay r age = 0%R).
Proof.
  intros Hm Hin.
  assert (Hd : (0 < duration r)%R).
  { destruct (ripplesOk_run inputs c0 (ripplesOk_mount _ _ _ _ _ _ _ _ Hm))
      as [_ Hall].
    rewrite List.Forall_forall in Hall. rewrite (Hall r Hin). lra. }
  split; [|split; [|split]].
  - intros timestamp px py cell value Hage.
    rewrite (rippleTerm_expired timestamp px py cell r Hd Hage).
    split; [reflexivity | ring].
  - apply temporalDecay_nonneg.
  - intros age age'. apply temporalDecay_decreasing, Hd.
  - intros age. apply temporalDecay_expired, Hd.
Qed.

End Stars.

(** C8, as the code has it. An event without [detail], without an id, or
    with an empty id is dropped: the state, tint and ripples included, is
    unchanged. An event with an id and without a side is handled as one
    whose side is ['left']: the tint becomes the id and a ripple is
    inserted at 0.82 of the width. *)
Theorem handleSectionChange_missing_field
    (clientWidth clientHeight : Z) (now : R) (c : State) :
  (forall detail,
      (detail = None
       \/ exists d, detail = Some d
                    /\ (id d = None \/ id d = Some EmptyString)) ->
      handleSectionChange detail clientWidth clientHeight now c = c)
  /\ (forall a rest,
         let id0 := String a rest in
         let received :=
           handleSectionChange (Some {| id := Some id0; side := None |})
                               clientWidth clientHeight now c in
         received =
           pushRipple (IZR clientWidth * 0.82) (IZR clientHeight * 0.45) 0.65 now
                      (setActiveSection id0 c)
         /\ received =
            handleSectionChange
              (Some {| id := Some id0; side := Some "left"%string |})
              clientWidth clientHeight now c
         /\ activeSection received = id0).
Proof.
  split.
  - intros detail [-> | (d & -> & [E | E])];
      unfold handleSectionChange; try rewrite E; reflexivity.
  - intros a rest id0 received. unfold received, handleSectionChange. simpl.
    repeat split.
    apply (pushRipple_fields _ _ _ _ (setActiveSection id0 c)).
Qed.

(** ** The small canvas *)

Lemma started_mounted : mount dice true true 36 36 36 36 0 = Some started.
Proof. reflexivity. Qed.

Lemma started_fields :
  ripples started = [rippleAt (IZR 36 * 0.18) (IZR 36 * 0.45) 0.4 0]
  /\ activeSection started = "about"%string.
Proof.
  unfold started. rewrite pushRipple_ripples.
  destruct (pushRipple_fields (IZR 36 * 0.18) (IZR 36 * 0.45) 0.4 0
              (requestAnimationFrame (handleResize dice 36 36 initialState)))
    as (-> & _).
  change (ripples (requestAnimationFrame ?c)) with (ripples c).
  change (activeSection (requestAnimationFrame ?c)) with (activeSection c).
  destruct (handleResize_fields dice 36 36 initialState) as (-> & ->).
  split; reflexivity.
Qed.

Lemma sideless_received c :
  handleSectionChange sideless 36 36 5000 c
  = pushRipple (IZR 36 * 0.82) (IZR 36 * 0.45) 0.65 5000
               (setActiveSection "tech" c).
Proof. reflexivity. Qed.

(** C3, as stated, fails: the ripple inserted at time 0 is 10 seconds
    old, with a duration of 2.6, when the frame of time 10000 is over,
    and it is still in the collection. *)
Lemma expired_ripple_is_retained :
  let c := step dice started (Frame 10000 36 36) in
  let r := rippleAt (IZR 36 * 0.18) (IZR 36 * 0.45) 0.4 0 in
  ripples c = [r] /\ (duration r < (10000 - start r) / 1000)%R.
Proof.
  split.
  - apply started_fields.
  - simpl. lra.
Qed.

(** C8, as stated, fails: an event with an id and without a side changes
    the tint and inserts a ripple. *)
Lemma event_without_side_is_handled :
  let c := handleSectionChange sideless 36 36 5000 started in
  activeSection started = "about"%string
  /\ activeSection c = "tech"%string
  /\ length (ripples started) = 1%nat
  /\ length (ripples c) = 2%nat.
Proof.
  destruct started_fields as [Hr Ha]. intros c. unfold c.
  rewrite sideless_received.
  destruct (pushRipple_fields (IZR 36 * 0.82) (IZR 36 * 0.45) 0.65 5000
              (setActiveSection "tech" started)) as (-> & _).
  rewrite pushRipple_ripples.
  change (ripples (setActiveSection "tech" started)) with (ripples started).
  rewrite Hr. repeat split; auto.
Qed.

Lemma ripples_bounded_fifo_witness :
  (length (ripples (pushRipple 1 2 0.65 7000
                      (run dice started [SectionChange sideless 36 36 5000])))
   <= MAX_RIPPLES)%nat.
Proof.
  destruct (ripples_bounded_fifo dice true true 36 36 36 36 0 started
              [SectionChange sideless 36 36 5000] 1 2 0.65 7000 eq_refl)
    as [H _].
  exact H.
Defined.

Lemma ripples_leave_by_eviction_only_witness :
  ripples (fst (renderFrame 10000 36 36 started)) = ripples started.
Proof.
  destruct (ripples_leave_by_eviction_only dice started (Frame 10000 36 36)
              (rippleAt (IZR 36 * 0.18) (IZR 36 * 0.45) 0.4 0)) as [H _].
  - rewrite (proj1 started_fields). left. reflexivity.
  - apply H.
Defined.

Lemma expired_ripple_contributes_nothing_witness :
  rippleTerm 10000 0 0 18 (rippleAt (IZR 36 * 0.18) (IZR 36 * 0.45) 0.4 0) = 0%R.
Proof.
  destruct (expired_ripple_contributes_nothing dice true true 36 36 36 36 0
              started [] (rippleAt (IZR 36 * 0.18) (IZR 36 * 0.45) 0.4 0) eq_refl)
    as [H _].
  - change (run dice started []) with started.
    rewrite (proj1 started_fields). left. reflexivity.
  - apply (H 10000 0 0 18 0)%R. simpl. lra.
Defined.

Lemma handleSectionChange_missing_field_witness :
  handleSectionChange None 36 36 5000 started = started
  /\ handleSectionChange (Some {| id := Some ""%string; side := Some "right"%string |})
                         36 36 5000 started = started.
Proof.
  destruct (handleSectionChange_missing_field 36 36 5000 started) as [H _].
  split; apply H.
  - left. reflexivity.
  - right. eexists. split; [reflexivity|]. right. reflexivity.
Defined.

End CanvasFacts.

(** * Further properties of the section navigator *)

Module NavigatorMore.
Import Navigator NavigatorFacts.

(** ** Handles and timers *)

Lemma NoDup_map_filter {A B} (f : A -> B) (p : A -> bool) (l : list A) :
  List.NoDup (List.map f l) -> List.NoDup (List.map f (List.filter p l)).
Proof.
  induction l as [|a l IH]; simpl; intros H; [constructor|].
  inversion H as [|? ? Hnot Hrest]; subst.
  destruct (p a); simpl; auto.
  constructor; auto.
  intros Hin. apply Hnot. apply List.in_map_iff in Hin as (b & <- & Hb).
  apply List.filter_In in Hb as [Hb _]. apply List.in_map, Hb.
Qed.

Lemma NoDup_map_inj {A B} (f : A -> B) (l : list A) a b :
  List.NoDup (List.map f l) -> In a l -> In b l -> f a = f b -> a = b.
Proof.
  induction l as [|c l IH]; simpl; intros H Ha Hb E; [contradiction|].
  inversion H as [|? ? Hnot Hrest]; subst.
  destruct Ha as [-> | Ha], Hb as [-> | Hb]; auto.
  - exfalso. apply Hnot. rewrite E. apply List.in_map, Hb.
  - exfalso. apply Hnot. rewrite <- E. apply List.in_map, Ha.
Qed.

Lemma NoDup_map_snoc {A B} (f : A -> B) (l : list A) x :
  List.NoDup (List.map f l) -> (forall a, In a l -> f a <> f x) ->
  List.NoDup (List.map f (l ++ [x])).
Proof.
  induction l as [|c l IH]; simpl; intros H Hx.
  - constructor; [intros [] | constructor].
  - inversion H as [|? ? Hnot Hrest]; subst. constructor.
    + rewrite List.map_app, List.in_app_iff. simpl.
      intros [Hin | [E | []]]; [auto|].
      apply (Hx c); auto.
    + apply IH; auto.
Qed.

Lemma in_without h ts t : In t (without h ts) <-> In t ts /\ tid t <> h.
Proof.
  unfold without. rewrite List.filter_In.
  destruct (Nat.eqb_spec (tid t) h); simpl; intuition congruence.
Qed.

Lemma slot_clear_self kind bound h clock ts :
  slotOk kind bound (Some h) clock ts ->
  slotOk kind bound None clock (without h ts).
Proof.
  intros [Ho Hl]. split; [|discriminate].
  intros t Ht Hk. apply in_without in Ht as [Ht Hne].
  destruct (Ho t Ht Hk) as [E _]. congruence.
Qed.

Lemma slot_none_filter kind bound clock ts (p : Timer -> bool) :
  slotOk kind bound None clock ts ->
  slotOk kind bound None clock (List.filter p ts).
Proof.
  intros [Ho Hl]. split; [|discriminate].
  intros t Ht Hk. apply List.filter_In in Ht as [Ht _].
  destruct (Ho t Ht Hk) as [E _]. discriminate.
Qed.

Lemma slot_clear_other kind kind' bound handle h clock ts t0 :
  kind <> kind' ->
  List.NoDup (List.map tid ts) ->
  In t0 ts -> tid t0 = h -> callback t0 = kind' ->
  slotOk kind bound handle clock ts ->
  slotOk kind bound handle clock (without h ts).
Proof.
  intros Hk Hnd H0 Hh Hc [Ho Hl]. split.
  - intros t Ht. apply in_without in Ht as [Ht _]. auto.
  - intros h1 E. destruct (Hl h1 E) as (t1 & H1 & Ht1 & Hc1).
    exists t1. split; auto. apply in_without. split; auto.
    intros E1. apply Hk.
    rewrite <- Hc1, <- Hc. f_equal.
    apply (NoDup_map_inj tid ts); auto. congruence.
Qed.

Lemma slot_add_self kind bound clock next ts :
  slotOk kind bound None clock ts ->
  slotOk kind bound (Some next) clock
    (ts ++ [{| tid := next; due := (clock + bound)%N; callback := kind |}]).
Proof.
  intros [Ho Hl]. split.
  - intros t Ht Hk. apply List.in_app_iff in Ht as [Ht | [<- | []]].
    + destruct (Ho t Ht Hk). discriminate.
    + simpl. split; [reflexivity | lia].
  - intros h [= <-]. eexists. split; [apply List.in_app_iff; right; left; reflexivity|].
    auto.
Qed.

Lemma slot_add_other kind kind' bound handle clock next d ts :
  kind <> kind' ->
  slotOk kind bound handle clock ts ->
  slotOk kind bound handle clock
    (ts ++ [{| tid := next; due := d; callback := kind' |}]).
Proof.
  intros Hk [Ho Hl]. split.
  - intros t Ht Hc. apply List.in_app_iff in Ht as [Ht | [<- | []]]; auto.
    simpl in Hc. congruence.
  - intros h E. destruct (Hl h E) as (t & Ht & ?). exists t.
    split; auto. apply List.in_app_iff. auto.
Qed.

Lemma slot_later kind bound handle clock clock' ts :
  (clock <= clock')%N ->
  slotOk kind bound handle clock ts -> slotOk kind bound handle clock' ts.
Proof.
  intros Hle [Ho Hl]. split; auto.
  intros t Ht Hk. destruct (Ho t Ht Hk). split; auto. lia.
Qed.

(** Clearing the timer a handle names and dropping the handle. *)
Lemma steady_clear_wheel wheel release clock next ts :
  timersSteadyOf wheel release clock next ts ->
  timersSteadyOf None release clock next
    (match wheel with Some h => without h ts | None => ts end).
Proof.
  intros H. destruct wheel as [h|]; [|exact H]. destruct H as (Hnd & Hf & Hw & Hr).
  destruct Hw as [Hwo Hwl]. destruct (Hwl h eq_refl) as (t0 & H0 & Ht0 & Hc0).
  split; [apply NoDup_map_filter, Hnd|]. split.
  - intros t Ht. apply in_without in Ht as [Ht _]. auto.
  - split; [apply slot_clear_self; split; assumption|].
    apply (slot_clear_other ReleaseCb WheelResetCb _ _ _ _ _ t0); auto; discriminate.
Qed.

Lemma steady_clear_release wheel release clock next ts :
  timersSteadyOf wheel release clock next ts ->
  timersSteadyOf wheel None clock next
    (match release with Some h => without h ts | None => ts end).
Proof.
  intros H. destruct release as [h|]; [|exact H]. destruct H as (Hnd & Hf & Hw & Hr).
  destruct Hr as [Hro Hrl]. destruct (Hrl h eq_refl) as (t0 & H0 & Ht0 & Hc0).
  split; [apply NoDup_map_filter, Hnd|]. split.
  - intros t Ht. apply in_without in Ht as [Ht _]. auto.
  - split; [|apply slot_clear_self; split; assumption].
    apply (slot_clear_other WheelResetCb ReleaseCb _ _ _ _ _ t0); auto; discriminate.
Qed.

Lemma steady_add_fresh wheel release clock next ts d k :
  timersSteadyOf wheel release clock next ts ->
  List.NoDup (List.map tid (ts ++ [{| tid := next; due := d; callback := k |}]))
  /\ (forall t, In t (ts ++ [{| tid := next; due := d; callback := k |}]) ->
                (tid t < S next)%nat).
Proof.
  intros (Hnd & Hf & _). split.
  - apply NoDup_map_snoc; auto. intros a Ha. specialize (Hf a Ha). simpl. lia.
  - intros t Ht. apply List.in_app_iff in Ht as [Ht | [<- | []]]; simpl.
    + specialize (Hf t Ht). lia.
    + lia.
Qed.

Lemma steady_set_wheel release clock next ts :
  timersSteadyOf None release clock next ts ->
  timersSteadyOf (Some next) release clock (S next)
    (ts ++ [{| tid := next; due := (clock + WHEEL_RESET_MS)%N;
               callback := WheelResetCb |}]).
Proof.
  intros H. destruct (steady_add_fresh _ _ _ _ _ (clock + WHEEL_RESET_MS)%N
                        WheelResetCb H) as [H1 H2].
  destruct H as (_ & _ & Hw & Hr).
  split; [exact H1|]. split; [exact H2|]. split.
  - apply slot_add_self, Hw.
  - apply slot_add_other; [discriminate | exact Hr].
Qed.

Lemma steady_set_release wheel clock next ts :
  timersSteadyOf wheel None clock next ts ->
  timersSteadyOf wheel (Some next) clock (S next)
    (ts ++ [{| tid := next; due := (clock + SCROLL_LOCK_MS)%N;
               callback := ReleaseCb |}]).
Proof.
  intros H. destruct (steady_add_fresh _ _ _ _ _ (clock + SCROLL_LOCK_MS)%N
                        ReleaseCb H) as [H1 H2].
  destruct H as (_ & _ & Hw & Hr).
  split; [exact H1|]. split; [exact H2|]. split.
  - apply slot_add_other; [discriminate | exact Hw].
  - apply slot_add_self, Hr.
Qed.

Lemma steady_later wheel release clock clock' next ts :
  (clock <= clock')%N ->
  timersSteadyOf wheel release clock next ts ->
  timersSteadyOf wheel release clock' next ts.
Proof.
  intros Hle (Hnd & Hf & Hw & Hr).
  split; [exact Hnd|]. split; [exact Hf|].
  split; apply (slot_later _ _ _ clock clock' ts Hle); assumption.
Qed.

Lemma without_idem h ts : without h (without h ts) = without h ts.
Proof.
  unfold without. induction ts as [|t ts IH]; simpl; auto.
  destruct (negb (Nat.eqb (tid t) h)) eqn:E; simpl; rewrite ?E, IH; reflexivity.
Qed.

Section Steady.
Variable sections : list Element.

Lemma ts_resetWheel s : timersSteady s -> timersSteady (resetWheel s).
Proof.
  unfold timersSteady, resetWheel. destruct s as [[] []]; simpl.
  intros H. apply steady_clear_wheel in H.
  destruct wheelResetTimer0; exact H.
Qed.

Lemma ts_unlockScroll s : timersSteady s -> timersSteady (unlockScroll s).
Proof.
  unfold timersSteady, unlockScroll. destruct s as [[] []]; simpl.
  intros H. apply steady_clear_release in H.
  destruct releaseTimer0; exact H.
Qed.

Lemma ts_scheduleWheelReset s :
  timersSteady s -> timersSteady (scheduleWheelReset s).
Proof.
  unfold timersSteady, scheduleWheelReset. destruct s as [[] []]; simpl.
  intros H. apply steady_clear_wheel, steady_set_wheel in H.
  destruct wheelResetTimer0; exact H.
Qed.

Lemma ts_scrollToIndex index s :
  timersSteady s -> timersSteady (scrollToIndex sections index s).
Proof.
  intros H. unfold scrollToIndex.
  destruct ((index <? 0) || (index >=? Z.of_nat (length sections))); [exact H|].
  apply ts_resetWheel in H. revert H.
  unfold timersSteady. destruct (resetWheel s) as [[] []]; simpl.
  intros H. apply steady_clear_release, steady_set_release in H.
  destruct releaseTimer0; exact H.
Qed.

Lemma ts_same s s' :
  timers (win s') = timers (win s) -> nextTimer (win s') = nextTimer (win s) ->
  now (win s') = now (win s) ->
  wheelResetTimer (nav s') = wheelResetTimer (nav s) ->
  releaseTimer (nav s') = releaseTimer (nav s) ->
  timersSteady s -> timersSteady s'.
Proof. unfold timersSteady. intros -> -> -> -> ->. auto. Qed.

Lemma ts_setActive element s :
  timersSteady s -> timersSteady (setActive sections element s).
Proof.
  destruct (setActive_timers sections element s)
    as (H1 & H2 & H3 & _ & H4 & H5 & _).
  apply ts_same; assumption.
Qed.

Lemma ts_observerCallback entries s :
  timersSteady s -> timersSteady (observerCallback sections entries s).
Proof.
  unfold observerCallback. destruct (mostVisible entries) as [v|]; auto.
  destruct (html (target v)); auto using ts_setActive.
Qed.

Lemma ts_firstFrame s : timersSteady s -> timersSteady (firstFrame sections s).
Proof.
  unfold firstFrame. destruct (rafPending (win s)); auto. intros H.
  assert (Hl : forall l : list Element,
             timersSteady
               match l with
               | first :: _ => setActive sections first (on_win (set_rafPending false) s)
               | [] => on_win (set_rafPending false) s
               end).
  { intros [|first ?]; [|apply ts_setActive];
      apply (ts_same s); auto. }
  apply Hl.
Qed.

Lemma ts_handleWheel deltaY s :
  timersSteady s -> timersSteady (handleWheel sections deltaY s).
Proof.
  intros H. unfold handleWheel.
  destruct (isAnimating (nav s)); [apply (ts_same s); auto|].
  set (s1 := on_nav _ s).
  assert (H1 : timersSteady (scheduleWheelReset s1))
    by (apply ts_scheduleWheelReset, (ts_same s); auto).
  destruct (Z.abs _ <? WHEEL_TRIGGER); [exact H1|].
  apply ts_resetWheel.
  destruct (_ && _); [apply ts_scrollToIndex|];
    apply (ts_same (scheduleWheelReset s1)); auto.
Qed.

Lemma ts_handleTouchStart touches s :
  timersSteady s -> timersSteady (handleTouchStart touches s).
Proof.
  intros H. unfold handleTouchStart. destruct touches as [|y [|]]; auto.
  apply ts_resetWheel, (ts_same s); auto.
Qed.

Lemma ts_handleTouchMove touches s :
  timersSteady s -> timersSteady (handleTouchMove sections touches s).
Proof.
  intros H. unfold handleTouchMove.
  destruct (touchStartY (nav s)); auto.
  destruct (isAnimating (nav s)); auto.
  destruct touches as [|currentY ?]; auto.
  destruct (Z.abs _ <? TOUCH_TRIGGER); auto.
  destruct (_ && _).
  - apply (ts_same (scrollToIndex sections
                      (activeIndex (nav (preventDefault s))
                       + (if z - currentY >? 0 then 1 else -1))
                      (preventDefault s))); auto.
    apply ts_scrollToIndex, (ts_same s); auto.
  - apply (ts_same s); auto.
Qed.

(** A pending timer fires: it leaves the queue and its callback runs. *)
Lemma ts_fires u s :
  In u (timers (win s)) -> timersSteady s ->
  timersSteady (runCallback (callback u) (on_win (clearTimeout (tid u)) s)).
Proof.
  intros Hin H. pose proof H as (_ & _ & [Hwo _] & [Hro _]).
  destruct (callback u) eqn:Hc; simpl.
  - destruct (Hwo u Hin Hc) as [E _].
    revert H. unfold timersSteady. destruct s as [[] []]; simpl in *.
    intros H. apply steady_clear_wheel in H. rewrite E in H. exact H.
  - destruct (Hro u Hin Hc) as [E _].
    revert H. unfold timersSteady, unlockScroll. destruct s as [[] []]; simpl in *.
    intros H. apply steady_clear_release in H. rewrite E in *.
    rewrite <- without_idem in H. exact H.
Qed.

Lemma ts_fire k limit s : timersSteady s -> timersSteady (fire k limit s).
Proof.
  revert s. induction k as [|k IH]; intros s H; simpl; auto.
  destruct (earliest limit (timers (win s))) as [u|] eqn:E; auto.
  apply IH, ts_fires; auto. apply (earliest_In _ _ _ E).
Qed.

Lemma ts_elapse dt s : timersSteady s -> timersSteady (elapse dt s).
Proof.
  intros H. unfold elapse.
  apply (ts_fire (length (timers (win s))) (now (win s) + dt)%N) in H.
  pose proof (fire_now (length (timers (win s))) (now (win s) + dt)%N s) as Hn.
  revert H Hn. unfold timersSteady. destruct (fire _ _ s) as [[] []]; simpl.
  intros H Hn. apply (steady_later _ _ now0); [lia | exact H].
Qed.

Lemma ts_step s i : timersSteady s -> timersSteady (step sections s i).
Proof.
  destruct i; simpl;
    auto using ts_handleWheel, ts_handleTouchStart, ts_handleTouchMove,
               ts_observerCallback, ts_firstFrame, ts_elapse.
Qed.

Lemma forEachSection_index element secs idx n :
  activeIndex (forEachSection element secs idx n) = activeIndex n
  \/ idx <= activeIndex (forEachSection element secs idx n)
            < idx + Z.of_nat (length secs).
Proof.
  revert idx n. induction secs as [|section rest IH]; intros idx n; simpl.
  - left. reflexivity.
  - destruct (sameNode section element).
    + destruct (IH (idx + 1)
                  (set_activeSide (sideOf section) (set_activeIndex idx n)))
        as [E | E]; right; simpl in E; lia.
    + destruct (IH (idx + 1) n) as [E | E]; [left; exact E | right; lia].
Qed.

Lemma ns_same s s' :
  wheelDelta (nav s') = wheelDelta (nav s) ->
  wheelResetTimer (nav s') = wheelResetTimer (nav s) ->
  isAnimating (nav s') = isAnimating (nav s) ->
  releaseTimer (nav s') = releaseTimer (nav s) ->
  0 <= activeIndex (nav s') < Z.of_nat (length sections) ->
  navSteady sections s -> navSteady sections s'.
Proof.
  unfold navSteady. intros -> -> -> -> Hi (H1 & H2 & H3 & H4 & _). auto.
Qed.

Lemma ns_setActive element s :
  navSteady sections s -> navSteady sections (setActive sections element s).
Proof.
  intros H.
  destruct (setActive_timers sections element s)
    as (_ & _ & _ & _ & H4 & H5 & H6 & H7 & _).
  apply (ns_same s); auto.
  unfold setActive. destruct H as (_ & _ & _ & _ & Hi).
  destruct (sectionId element) as [[|a rest]|]; simpl; auto.
  destruct (forEachSection_index element sections 0 (nav s)) as [-> | E]; lia.
Qed.

Lemma ns_observerCallback entries s :
  navSteady sections s -> navSteady sections (observerCallback sections entries s).
Proof.
  unfold observerCallback. destruct (mostVisible entries) as [v|]; auto.
  destruct (html (target v)); auto using ns_setActive.
Qed.

Lemma ns_firstFrame s :
  navSteady sections s -> navSteady sections (firstFrame sections s).
Proof.
  unfold firstFrame. destruct (rafPending (win s)); auto. intros H.
  assert (Hl : forall l : list Element,
             navSteady sections
               match l with
               | first :: _ => setActive sections first (on_win (set_rafPending false) s)
               | [] => on_win (set_rafPending false) s
               end).
  { intros [|first ?]; [|apply ns_setActive]; exact H. }
  apply Hl.
Qed.

Ltac nav_cases :=
  unfold navSteady, WHEEL_TRIGGER in *; simpl;
  intuition (try discriminate; try congruence; try lia).

Lemma ns_handleWheel deltaY s :
  navSteady sections s -> navSteady sections (handleWheel sections deltaY s).
Proof.
  unfold handleWheel, scheduleWheelReset, scrollToIndex, resetWheel,
    preventDefault, WHEEL_TRIGGER.
  destruct s as [[ai an wd wt rt ty sd] w].
  unfold navSteady at 1. simpl. intros (H1 & H2 & H3 & H4 & H5).
  destruct an; simpl; [nav_cases|].
  set (target := ai + (if wd + deltaY >? 0 then 1 else -1)).
  assert (Hrt : rt = None) by (destruct rt; auto; destruct H3 as [_ H3];
                               discriminate H3; discriminate).
  subst rt.
  destruct wt; simpl; fold target;
    (destruct (Z.abs (wd + deltaY) <? 80) eqn:E; simpl;
     [apply Z.ltb_lt in E; nav_cases|]);
    destruct (target >=? 0) eqn:E1;
    destruct (target <? Z.of_nat (length sections)) eqn:E2; simpl;
    try (replace (target <? 0) with false by lia);
    try (replace (target >=? Z.of_nat (length sections)) with false by lia);
    simpl; nav_cases.
Qed.

Lemma ns_resetWheel s : navSteady sections s -> navSteady sections (resetWheel s).
Proof.
  unfold resetWheel, WHEEL_TRIGGER. destruct s as [[ai an wd wt rt ty sd] w].
  unfold navSteady at 1. simpl. intros (H1 & H2 & H3 & H4 & H5).
  destruct wt; unfold WHEEL_TRIGGER; nav_cases.
Qed.

Lemma ns_handleTouchStart touches s :
  navSteady sections s -> navSteady sections (handleTouchStart touches s).
Proof.
  intros H. unfold handleTouchStart. destruct touches as [|y [|]]; auto.
  apply ns_resetWheel. pose proof H as (_ & _ & _ & _ & Hi).
  revert H. apply ns_same; auto.
Qed.

Lemma ns_handleTouchMove touches s :
  navSteady sections s -> navSteady sections (handleTouchMove sections touches s).
Proof.
  unfold handleTouchMove.
  destruct (touchStartY (nav s)) as [startY|]; auto.
  destruct (isAnimating (nav s)) eqn:Ha; auto.
  destruct touches as [|currentY ?]; auto.
  destruct (Z.abs _ <? TOUCH_TRIGGER); auto.
  revert Ha.
  unfold scrollToIndex, resetWheel, preventDefault.
  destruct s as [[ai an wd wt rt ty sd] w].
  unfold navSteady at 1. simpl. intros -> (H1 & H2 & H3 & H4 & H5).
  set (target := ai + (if startY - currentY >? 0 then 1 else -1)).
  assert (Hrt : rt = None) by (destruct rt; auto; destruct H3 as [_ H3];
                               discriminate H3; discriminate).
  subst rt.
  destruct (target >=? 0) eqn:E1;
    destruct (target <? Z.of_nat (length sections)) eqn:E2; simpl;
    try (replace (target <? 0) with false by lia);
    try (replace (target >=? Z.of_nat (length sections)) with false by lia);
    simpl; destruct wt; simpl; unfold WHEEL_TRIGGER in *; nav_cases.
Qed.

Lemma ns_fires cb h s :
  navSteady sections s ->
  navSteady sections (runCallback cb (on_win (clearTimeout h) s)).
Proof.
  unfold unlockScroll. destruct s as [[ai an wd wt rt ty sd] w].
  unfold navSteady at 1. simpl. intros (H1 & H2 & H3 & H4 & H5).
  destruct cb; simpl; [|unfold unlockScroll; simpl; destruct rt; simpl];
    unfold WHEEL_TRIGGER in *; nav_cases.
Qed.

Lemma ns_fire k limit s :
  navSteady sections s -> navSteady sections (fire k limit s).
Proof.
  revert s. induction k as [|k IH]; intros s H; simpl; auto.
  destruct (earliest limit (timers (win s))) as [u|]; auto.
  apply IH, ns_fires, H.
Qed.

Lemma ns_step s i : navSteady sections s -> navSteady sections (step sections s i).
Proof.
  destruct i; simpl;
    auto using ns_handleWheel, ns_handleTouchStart, ns_handleTouchMove,
               ns_observerCallback, ns_firstFrame.
  intros H. unfold elapse.
  apply (ns_fire (length (timers (win s))) (now (win s) + dt)%N) in H.
  exact H.
Qed.

Lemma steady_step s i : steady sections s -> steady sections (step sections s i).
Proof. intros [H1 H2]. split; [apply ts_step | apply ns_step]; assumption. Qed.

Lemma steady_run inputs s :
  steady sections s -> steady sections (run sections s inputs).
Proof.
  revert s. induction inputs as [|i inputs IH]; intros s H; simpl; auto.
  apply IH, steady_step, H.
Qed.

Lemma steady_mount t0 h0 classes s :
  mount sections t0 h0 classes = Some s -> steady sections s.
Proof.
  unfold mount. destruct sections eqn:E; [discriminate|].
  intros [= <-]. split.
  - unfold timersSteady, timersSteadyOf, slotOk; simpl.
    repeat split; try constructor; try discriminate; intros; contradiction.
  - unfold navSteady, WHEEL_TRIGGER; simpl.
    repeat split; try discriminate; try lia; try congruence.
Qed.

End Steady.

Section Reachable.
Variable sections : list Element.

Lemma reachable_steady t0 h0 classes s0 inputs :
  mount sections t0 h0 classes = Some s0 ->
  steady sections (run sections s0 inputs) /\ wf (run sections s0 inputs).
Proof.
  intros Hm. split.
  - apply steady_run, (steady_mount _ _ _ _ _ Hm).
  - apply wf_run, (wf_mount _ _ _ _ _ Hm).
Qed.

(** X1. The active index is the index of a section in every state the
    mounted component reaches. *)
Theorem activeIndex_in_range t0 h0 classes s0 inputs :
  mount sections t0 h0 classes = Some s0 ->
  0 <= activeIndex (nav (run sections s0 inputs)) < Z.of_nat (length sections).
Proof.
  intros Hm.
  destruct (reachable_steady _ _ _ _ inputs Hm) as [[_ (_ & _ & _ & _ & H)] _].
  exact H.
Qed.

(** X2. The magnitude of the wheel accumulator is below the trigger in
    every reachable state: a delta that reaches 80 is consumed by the
    handler that adds it. *)
Theorem wheel_accumulator_below_trigger t0 h0 classes s0 inputs :
  mount sections t0 h0 classes = Some s0 ->
  Z.abs (wheelDelta (nav (run sections s0 inputs))) < WHEEL_TRIGGER.
Proof.
  intros Hm.
  destruct (reachable_steady _ _ _ _ inputs Hm) as [[_ (_ & _ & _ & H & _)] _].
  exact H.
Qed.

(** X3. In every reachable state with the lock set, the accumulator is
    empty, no wheel reset is pending, and the timer queue holds the release
    and nothing else. *)
Theorem locked_navigator_is_quiet t0 h0 classes s0 inputs :
  mount sections t0 h0 classes = Some s0 ->
  let s := run sections s0 inputs in
  isAnimating (nav s) = true ->
  wheelDelta (nav s) = 0
  /\ wheelResetTimer (nav s) = None
  /\ exists t, timers (win s) = [t]
               /\ callback t = ReleaseCb
               /\ releaseTimer (nav s) = Some (tid t).
Proof.
  intros Hm s Ha.
  destruct (reachable_steady _ _ _ _ inputs Hm) as [[Ht Hn] _]. fold s in Ht, Hn.
  destruct Hn as (_ & H2 & H3 & _). destruct (H2 Ha) as [Hd Hw].
  split; [exact Hd|]. split; [exact Hw|].
  destruct Ht as (Hnd & _ & [Hwo _] & [Hro Hrl]).
  destruct (releaseTimer (nav s)) as [h|] eqn:Hr;
    [|exfalso; apply (proj1 H3 Ha); reflexivity].
  destruct (Hrl h eq_refl) as (t & Hin & Htid & Hc).
  exists t. split; [|subst h; auto].
  assert (Hall : forall u, In u (timers (win s)) -> u = t).
  { intros u Hu. apply (NoDup_map_inj tid (timers (win s))); auto.
    destruct (callback u) eqn:Hcu.
    - destruct (Hwo u Hu Hcu) as [E _]. congruence.
    - destruct (Hro u Hu Hcu) as [E _]. congruence. }
  destruct (timers (win s)) as [|a [|b rest]] eqn:Hts.
  - contradiction.
  - rewrite (Hall a); [reflexivity | left; reflexivity].
  - exfalso. simpl in Hnd. inversion Hnd as [|? ? Hnot _]; subst.
    apply Hnot. left.
    rewrite (Hall a), (Hall b); [reflexivity | right; left; reflexivity | left; reflexivity].
Qed.

Lemma same_kind_same_handle s t u :
  timersSteady s -> In t (timers (win s)) -> In u (timers (win s)) ->
  callback t = callback u -> tid t = tid u.
Proof.
  intros (_ & _ & [Hwo _] & [Hro _]) Ht Hu E.
  destruct (callback u) eqn:Hc.
  - destruct (Hwo t Ht E) as [E1 _]. destruct (Hwo u Hu Hc) as [E2 _]. congruence.
  - destruct (Hro t Ht E) as [E1 _]. destruct (Hro u Hu Hc) as [E2 _]. congruence.
Qed.

(** X4. At most two timers of the component are pending in a reachable
    state, one wheel reset and one release at most; no release is
    pending while the navigator is unlocked. *)
Theorem pending_timers_bounded t0 h0 classes s0 inputs :
  mount sections t0 h0 classes = Some s0 ->
  let s := run sections s0 inputs in
  (length (timers (win s)) <= 2)%nat
  /\ (forall t u, In t (timers (win s)) -> In u (timers (win s)) ->
                  callback t = callback u -> t = u)
  /\ (isAnimating (nav s) = false ->
      forall t, In t (timers (win s)) -> callback t = WheelResetCb).
Proof.
  intros Hm s.
  destruct (reachable_steady _ _ _ _ inputs Hm) as [[Ht Hn] _]. fold s in Ht, Hn.
  pose proof Ht as (Hnd & _ & _ & [Hro _]).
  assert (Hkind : forall t u, In t (timers (win s)) -> In u (timers (win s)) ->
                              callback t = callback u -> t = u).
  { intros t u Hin Hiu E. apply (NoDup_map_inj tid (timers (win s))); auto.
    apply (same_kind_same_handle s); auto. }
  split; [|split; [exact Hkind|]].
  - destruct (timers (win s)) as [|a [|b [|c rest]]] eqn:Hts; simpl; try lia.
    exfalso. simpl in Hnd.
    inversion Hnd as [|? ? Ha Hnd1]; subst. inversion Hnd1 as [|? ? Hb _]; subst.
    assert (Hab : callback a <> callback b).
    { intros E. apply Ha. left. symmetry. f_equal. apply Hkind; simpl; auto. }
    assert (Hac : callback a <> callback c).
    { intros E. apply Ha. right. left. symmetry. f_equal. apply Hkind; simpl; auto. }
    assert (Hbc : callback b <> callback c).
    { intros E. apply Hb. left. symmetry. f_equal. apply Hkind; simpl; auto. }
    destruct (callback a), (callback b), (callback c); congruence.
  - intros Ha t Hin. destruct (callback t) eqn:Hc; [reflexivity|].
    destruct (Hro t Hin Hc) as [E _].
    destruct Hn as (_ & _ & H3 & _).
    assert (isAnimating (nav s) = true) by (apply H3; congruence). congruence.
Qed.

(** X5. A lock never outlives 900 ms: from any reachable state, locked at
    any moment of the past, 900 ms without input leave the navigator
    unlocked. *)
Theorem lock_never_outlives_duration t0 h0 classes s0 inputs dt :
  mount sections t0 h0 classes = Some s0 ->
  (SCROLL_LOCK_MS <= dt)%N ->
  isAnimating (nav (elapse dt (run sections s0 inputs))) = false.
Proof.
  intros Hm Hdt.
  destruct (reachable_steady _ _ _ _ inputs Hm) as [[Ht Hn] Hwf].
  set (s := run sections s0 inputs) in *.
  unfold elapse. simpl.
  destruct (isAnimating (nav s)) eqn:Ha; [|apply fire_stays_unlocked, Ha].
  destruct Hn as (_ & _ & H3 & _).
  destruct (releaseTimer (nav s)) as [h|] eqn:Hr;
    [|exfalso; apply (proj1 H3 Ha); reflexivity].
  destruct Ht as (_ & _ & _ & [Hro Hrl]).
  rewrite Hr in Hrl. destruct (Hrl h eq_refl) as (t & Hin & _ & Hc).
  destruct (Hro t Hin Hc) as [_ Hdue].
  apply fire_unlocks with (t := t); auto. lia.
Qed.

Lemma fire_keeps_idle k limit s :
  wheelDelta (nav s) = 0 -> wheelResetTimer (nav s) = None ->
  wheelDelta (nav (fire k limit s)) = 0
  /\ wheelResetTimer (nav (fire k limit s)) = None.
Proof.
  revert s. induction k as [|k IH]; intros s Hd Hw; simpl; auto.
  destruct (earliest limit (timers (win s))) as [u|]; auto.
  apply IH; destruct (callback u); simpl; auto;
    unfold unlockScroll; destruct s as [[] []]; simpl in *;
    destruct releaseTimer0; simpl; auto.
Qed.

Lemma fire_resets k limit s t :
  timersSteady s -> In t (timers (win s)) -> callback t = WheelResetCb ->
  (due t <= limit)%N -> (length (timers (win s)) <= k)%nat ->
  wheelDelta (nav (fire k limit s)) = 0
  /\ wheelResetTimer (nav (fire k limit s)) = None.
Proof.
  revert s. induction k as [|k IH]; intros s Hs Hin Hc Hdue Hlen; simpl.
  - destruct (timers (win s)); [contradiction | simpl in Hlen; lia].
  - destruct (earliest_exists limit _ t Hin Hdue) as [u He]. rewrite He.
    apply earliest_In in He as [Hinu Hdu].
    destruct (callback u) eqn:Hcu.
    + apply fire_keeps_idle; reflexivity.
    + pose proof (ts_fires u s Hinu Hs) as Hs'. rewrite Hcu in Hs'.
      assert (Hne : tid t <> tid u).
      { intros E. destruct Hs as (Hnd & _).
        rewrite (NoDup_map_inj tid _ t u Hnd Hin Hinu E) in Hc. congruence. }
      pose proof (clear_shrinks u _ Hinu) as Hshrink.
      apply IH; auto.
      * unfold runCallback, unlockScroll. destruct s as [[] []]; simpl in *.
        destruct releaseTimer0; simpl;
          repeat (apply List.filter_In; split); auto;
          try (apply Bool.negb_true_iff, Nat.eqb_neq; exact Hne).
        destruct Hs as (_ & _ & _ & [Hro _]).
        destruct (Hro u Hinu Hcu) as [[= ->] _].
        apply Bool.negb_true_iff, Nat.eqb_neq; exact Hne.
      * unfold runCallback, unlockScroll. destruct s as [[] []]; simpl in *.
        destruct releaseTimer0; simpl;
          try (pose proof (List.filter_length_le
                        (fun t1 => negb (Nat.eqb (tid t1) n))
                        (List.filter (fun t1 => negb (Nat.eqb (tid t1) (tid u)))
                                     timers0))); lia.
Qed.

(** X6. The accumulator is forgotten after 220 ms without input: from any
    reachable state, a pause of 220 ms or more leaves it at 0 with no reset
    pending. *)
Theorem idle_pause_resets_accumulator t0 h0 classes s0 inputs dt :
  mount sections t0 h0 classes = Some s0 ->
  (WHEEL_RESET_MS <= dt)%N ->
  let s := elapse dt (run sections s0 inputs) in
  wheelDelta (nav s) = 0 /\ wheelResetTimer (nav s) = None.
Proof.
  intros Hm Hdt.
  destruct (reachable_steady _ _ _ _ inputs Hm) as [[Ht Hn] _].
  set (r := run sections s0 inputs) in *.
  unfold elapse. simpl.
  destruct (wheelResetTimer (nav r)) as [h|] eqn:Hw.
  - pose proof Ht as (_ & _ & [Hwo Hwl] & _).
    rewrite Hw in Hwl. destruct (Hwl h eq_refl) as (t & Hin & _ & Hc).
    destruct (Hwo t Hin Hc) as [_ Hdue].
    apply fire_resets with (t := t); auto. lia.
  - apply fire_keeps_idle; auto.
    destruct Hn as (H1 & _).
    destruct (Z.eq_dec (wheelDelta (nav r)) 0) as [E | E]; auto.
    exfalso. apply (H1 E), Hw.
Qed.

(** X7. Teardown leaves nothing of the component scheduled: whatever
    state the component has reached, after [cleanup] no timer is pending
    and the frame requested at mount is cancelled. *)
Theorem cleanup_releases_everything t0 h0 classes s0 inputs :
  mount sections t0 h0 classes = Some s0 ->
  let s := cleanup (run sections s0 inputs) in
  timers (win s) = [] /\ rafPending (win s) = false.
Proof.
  intros Hm.
  destruct (reachable_steady _ _ _ _ inputs Hm) as [[Ht _] _].
  set (r := run sections s0 inputs) in *.
  destruct Ht as (_ & _ & [Hwo _] & [Hro _]).
  unfold cleanup, resetWheel. destruct r as [[ai an wd wt rt ty sd] w]; simpl in *.
  assert (Hnone : forall l : list Timer, (forall t, ~ In t l) -> l = [])
    by (intros [|a l] H; [reflexivity | exfalso; apply (H a); left; reflexivity]).
  split.
  - apply Hnone. intros t.
    destruct wt as [hw|], rt as [hr|]; simpl; intros Hin;
      repeat (apply List.filter_In in Hin as [Hin ?]);
      (destruct (callback t) eqn:Hc;
       [destruct (Hwo t Hin Hc) as [E _] | destruct (Hro t Hin Hc) as [E _]]);
      try discriminate; injection E as ->;
      match goal with
      | H : negb (Nat.eqb ?a ?a) = true |- _ =>
          rewrite Nat.eqb_refl in H; discriminate
      end.
  - destruct wt, rt; reflexivity.
Qed.




Lemma forEachSection_miss element secs idx n :
  (forall x, In x secs -> node x <> node element) ->
  forEachSection element secs idx n = n
  /\ List.map (fun x => sameNode x element) secs
     = List.map (fun _ => false) secs.
Proof.
  revert idx n. induction secs as [|x secs IH]; intros idx n H; simpl; auto.
  assert (E : sameNode x element = false)
    by (apply Nat.eqb_neq, H; left; reflexivity).
  rewrite E. destruct (IH (idx + 1) n) as [E1 E2].
  - intros y Hy. apply H. right. exact Hy.
  - rewrite E1, E2. auto.
Qed.

Lemma none_active (secs : list Element) (m k : nat) :
  (k < m)%nat ->
  List.map (fun _ => false) secs
  = List.map (fun j => Nat.eqb j k) (seq m (length secs)).
Proof.
  revert m. induction secs as [|x secs IH]; intros m Hm; simpl; auto.
  assert (E : Nat.eqb m k = false) by (apply Nat.eqb_neq; lia).
  rewrite E. f_equal. apply IH. lia.
Qed.

Lemma forEachSection_hit element secs idx n i :
  List.NoDup (List.map node secs) ->
  nth_error secs i = Some element ->
  forEachSection element secs idx n
  = set_activeSide (sideOf element) (set_activeIndex (idx + Z.of_nat i) n)
  /\ forall start,
       List.map (fun x => sameNode x element) secs
       = List.map (fun k => Nat.eqb k (start + i)) (seq start (length secs)).
Proof.
  revert idx n i. induction secs as [|x secs IH]; intros idx n i Hnd Hi.
  - destruct i; discriminate.
  - inversion Hnd as [|? ? Hnot Hrest]; subst. destruct i as [|i]; simpl in Hi.
    + injection Hi as ->. simpl.
      assert (E : sameNode element element = true) by apply Nat.eqb_refl.
      rewrite E.
      destruct (forEachSection_miss element secs (idx + 1)
                  (set_activeSide (sideOf element) (set_activeIndex idx n)))
        as [E1 E2].
      * intros y Hy Ey. apply Hnot. rewrite <- Ey. apply List.in_map, Hy.
      * rewrite E1, E2. split; [f_equal; f_equal; lia|].
        intros start. rewrite Nat.add_0_r, Nat.eqb_refl. f_equal.
        apply none_active. lia.
    + simpl.
      assert (E : sameNode x element = false).
      { apply Nat.eqb_neq. intros Ex. apply Hnot. rewrite Ex.
        apply List.in_map, (List.nth_error_In _ _ Hi). }
      rewrite E. destruct (IH (idx + 1) n i Hrest Hi) as [E1 E2].
      rewrite E1. split; [f_equal; f_equal; lia|].
      intros start.
      assert (E3 : Nat.eqb start (start + S i) = false)
        by (apply Nat.eqb_neq; lia).
      rewrite E3, (E2 (S start)). f_equal.
      replace (S start + i)%nat with (start + S i)%nat by lia. reflexivity.
Qed.

(** X9. [setActive] on the [i]-th section of a page whose elements are
    distinct, with a non-empty id: the active index becomes [i], the active
    side the side of that section (['right'] only when its tag says so),
    that section alone carries the [is-active] class, and one event with
    its id and side is published. *)
Theorem setActive_activates_section
    (s : State) (i : nat) (element : Element) (a : ascii) (rest : string) :
  List.NoDup (List.map node sections) ->
  nth_error sections i = Some element ->
  sectionId element = Some (String a rest) ->
  let s' := setActive sections element s in
  nav s' = set_activeSide (sideOf element) (set_activeIndex (Z.of_nat i) (nav s))
  /\ isActiveClass (win s') = onlyActive i (length sections)
  /\ dispatched (win s')
     = dispatched (win s) ++ [{| id := String a rest; side := sideOf element |}].
Proof.
  intros Hnd Hi Hid s'. unfold s', setActive. rewrite Hid. simpl.
  destruct (forEachSection_hit element sections 0 (nav s) i Hnd Hi) as [E1 E2].
  rewrite E1, (E2 0%nat). repeat split.
Qed.

Lemma forEachSection_lock element secs idx n b :
  forEachSection element secs idx (set_isAnimating b n)
  = set_isAnimating b (forEachSection element secs idx n).
Proof.
  revert idx n. induction secs as [|x secs IH]; intros idx n; simpl; auto.
  destruct (sameNode x element); rewrite <- IH; reflexivity.
Qed.

(** X10. Visibility is not gated by the lock: the observer callback does
    to a locked navigator what it does to an unlocked one, the lock flag
    apart. *)
Theorem observer_ignores_lock (entries : list Entry) (s : State) (b : bool) :
  observerCallback sections entries (on_nav (set_isAnimating b) s)
  = on_nav (set_isAnimating b) (observerCallback sections entries s).
Proof.
  unfold observerCallback. destruct (mostVisible entries) as [v|]; auto.
  destruct (html (target v)); auto.
  unfold setActive. destruct (sectionId (target v)) as [[|a rest]|]; auto.
  unfold on_nav, on_win. simpl. rewrite forEachSection_lock. reflexivity.
Qed.

End Reachable.

(** ** The most visible entry *)

Lemma insertBy_head cmp x l :
  hd_error (insertBy cmp x l) = Some x
  \/ (exists y, hd_error l = Some y /\ hd_error (insertBy cmp x l) = Some y
                /\ Qle_bool (cmp x y) 0 = false).
Proof.
  destruct l as [|y l]; simpl; auto.
  destruct (Qle_bool (cmp x y) 0) eqn:E; simpl; eauto.
Qed.

Lemma sortBy_nil cmp l : sortBy cmp l = [] -> l = [].
Proof.
  destruct l as [|x l]; auto. unfold sortBy. simpl.
  destruct (fold_right (insertBy cmp) [] l); simpl;
    [discriminate | destruct (Qle_bool _ 0); discriminate].
Qed.

Lemma descending_keeps (a b : Q) : Qle_bool (b - a) 0 = true -> (b <= a)%Q.
Proof.
  intros E. apply Qle_bool_iff in E.
  apply (Qplus_le_l _ _ (- a)). rewrite Qplus_opp_r. exact E.
Qed.

Lemma descending_swaps (a b : Q) : Qle_bool (b - a) 0 = false -> (a <= b)%Q.
Proof.
  intros E. apply Qlt_le_weak, Qlt_minus_iff, Qnot_le_lt.
  intros Hle. apply Qle_bool_iff in Hle. unfold Qminus in E. congruence.
Qed.

Lemma sortBy_head_max (l : list Entry) v :
  hd_error (sortBy (fun a b => (intersectionRatio b - intersectionRatio a)%Q) l)
  = Some v ->
  In v l
  /\ forall e, In e l -> (intersectionRatio e <= intersectionRatio v)%Q.
Proof.
  set (cmp := fun a b : Entry => (intersectionRatio b - intersectionRatio a)%Q).
  revert v. induction l as [|x l IH]; intros v; [discriminate|].
  change (sortBy cmp (x :: l)) with (insertBy cmp x (sortBy cmp l)).
  destruct (sortBy cmp l) as [|y rest] eqn:Hs.
  - apply sortBy_nil in Hs. subst l. simpl. intros [= <-]. split; auto.
    intros e [<- | []]. apply Qle_refl.
  - destruct (IH y eq_refl) as [Hy Hmax]. simpl.
    destruct (Qle_bool (cmp x y) 0) eqn:E; simpl; intros [= <-].
    + apply descending_keeps in E. split; auto.
      intros e [<- | He]; [apply Qle_refl|].
      apply Qle_trans with (intersectionRatio y); auto.
    + apply descending_swaps in E. split; auto.
      intros e [<- | He]; auto.
Qed.

(** X11. The entry the observer callback acts on is an intersecting entry
    of the notification whose ratio no other intersecting entry exceeds;
    there is none exactly when no entry intersects. *)
Theorem mostVisible_is_maximal (entries : list Entry) :
  (forall v, mostVisible entries = Some v ->
             In v entries
             /\ isIntersecting v = true
             /\ forall e, In e entries -> isIntersecting e = true ->
                          (intersectionRatio e <= intersectionRatio v)%Q)
  /\ (mostVisible entries = None <->
      forall e, In e entries -> isIntersecting e = false).
Proof.
  unfold mostVisible. split.
  - intros v Hv. apply sortBy_head_max in Hv as [Hin Hmax].
    apply List.filter_In in Hin as [Hin Hi]. repeat split; auto.
    intros e He Hie. apply Hmax, List.filter_In. auto.
  - set (cmp := fun a b : Entry => (intersectionRatio b - intersectionRatio a)%Q).
    split.
    + intros Hnone e He. destruct (isIntersecting e) eqn:Hi; auto. exfalso.
      assert (Hin : In e (List.filter isIntersecting entries))
        by (apply List.filter_In; auto).
      destruct (List.filter isIntersecting entries) as [|x l]; [contradiction|].
      change (sortBy cmp (x :: l)) with (insertBy cmp x (sortBy cmp l)) in Hnone.
      destruct (insertBy_head cmp x (sortBy cmp l)) as [E | (y & _ & E & _)];
        congruence.
    + intros Hall.
      assert (List.filter isIntersecting entries = []) as ->; [|reflexivity].
      induction entries as [|x l IH]; simpl; auto.
      rewrite (Hall x) by (left; reflexivity). apply IH.
      intros e He. apply Hall. right. exact He.
Qed.


(** ** On the page of three sections *)

Lemma activeIndex_in_range_witness :
  0 <= activeIndex
         (nav (run page mounted [FirstFrame; Intersection [sees events 0.9]]))
    < 3.
Proof.
  apply (activeIndex_in_range page 0 1 [false; false; false] mounted
           [FirstFrame; Intersection [sees events 0.9]] eq_refl).
Defined.

Lemma wheel_accumulator_below_trigger_witness :
  Z.abs (wheelDelta (nav (run page mounted [Wheel 50; Wheel 29]))) < WHEEL_TRIGGER.
Proof.
  apply (wheel_accumulator_below_trigger page 0 1 [false; false; false] mounted
           [Wheel 50; Wheel 29] eq_refl).
Defined.

Lemma locked_navigator_is_quiet_witness :
  wheelDelta (nav (run page mounted [Wheel 50; Wheel 40])) = 0
  /\ wheelResetTimer (nav (run page mounted [Wheel 50; Wheel 40])) = None.
Proof.
  destruct (locked_navigator_is_quiet page 0 1 [false; false; false] mounted
              [Wheel 50; Wheel 40] eq_refl eq_refl) as (H1 & H2 & _).
  split; [exact H1 | exact H2].
Defined.

Lemma pending_timers_bounded_witness :
  Nat.le
    (length (timers (win (run page mounted [Wheel 90; Elapse 100; TouchStart [7]]))))
    2.
Proof.
  destruct (pending_timers_bounded page 0 1 [false; false; false] mounted
              [Wheel 90; Elapse 100; TouchStart [7]] eq_refl) as [H _].
  exact H.
Defined.

Lemma lock_never_outlives_duration_witness :
  isAnimating (nav (elapse 900 (run page mounted [Wheel 90; Elapse 10; Wheel 90])))
  = false.
Proof.
  apply (lock_never_outlives_duration page 0 1 [false; false; false] mounted
           [Wheel 90; Elapse 10; Wheel 90] 900 eq_refl).
  unfold SCROLL_LOCK_MS. lia.
Defined.

Lemma idle_pause_resets_accumulator_witness :
  wheelDelta (nav (elapse 220 (run page mounted [Wheel 30; Elapse 100; Wheel 30]))) = 0.
Proof.
  destruct (idle_pause_resets_accumulator page 0 1 [false; false; false] mounted
              [Wheel 30; Elapse 100; Wheel 30] 220 eq_refl) as [H _].
  - unfold WHEEL_RESET_MS. lia.
  - exact H.
Defined.

Lemma cleanup_releases_everything_witness :
  timers (win (cleanup (run page mounted [Wheel 90; Elapse 1; TouchStart [5]]))) = [].
Proof.
  destruct (cleanup_releases_everything page 0 1 [false; false; false] mounted
              [Wheel 90; Elapse 1; TouchStart [5]] eq_refl) as [H _].
  exact H.
Defined.

Lemma setActive_activates_section_witness :
  isActiveClass (win (setActive page tech mounted)) = [false; true; false]
  /\ activeIndex (nav (setActive page tech mounted)) = 1.
Proof.
  destruct (setActive_activates_section page mounted 1 tech "t"%char "ech"%string)
    as (H1 & H2 & _).
  - repeat constructor; simpl; intuition discriminate.
  - reflexivity.
  - reflexivity.
  - split; [exact H2 | rewrite H1; reflexivity].
Defined.

Lemma mostVisible_is_maximal_witness :
  (intersectionRatio (sees about 0.5) <= intersectionRatio (sees tech 0.9))%Q.
Proof.
  destruct (mostVisible_is_maximal [sees about 0.5; sees tech 0.9]) as [H _].
  destruct (H (sees tech 0.9) eq_refl) as (_ & _ & Hmax).
  apply Hmax; [left; reflexivity | reflexivity].
Defined.

End NavigatorMore.

(** * Further properties of the canvas *)

Module CanvasMore.
Import Canvas CanvasFacts.

(** ** Glyph and alpha of a cell *)








(** X15. The grid covers the window with less than one cell to spare:
    [cellsAcross width] cells of 18 pixels reach [width] and stop short of
    [width + 18]. *)
Theorem cellsAcross_covers (width : nat) :
  (width <= cellsAcross width * CELL_SIZE < width + CELL_SIZE)%nat.
Proof.
  unfold cellsAcross, CELL_SIZE.
  assert (E : Qceiling (inject_Z (Z.of_nat width) / inject_Z (Z.of_nat 18))
              = - ((- Z.of_nat width) / 18)).
  { unfold Qceiling, Qfloor, Qdiv, Qmult, Qinv, Qopp, inject_Z. simpl.
    rewrite Z.mul_1_r. reflexivity. }
  rewrite E.
  pose proof (Z.div_mod (- Z.of_nat width) 18) as Hdm.
  pose proof (Z.mod_pos_bound (- Z.of_nat width) 18) as Hb.
  lia.
Qed.

(** ** Stars *)

Lemma stars_cons (v : N) (mask : list N) :
  starsIn (v :: mask) = ((if N.eqb 1 v then 1 else 0) + starsIn mask)%nat.
Proof. unfold starsIn. cbn -[N.eqb]. destruct (N.eqb 1 v); reflexivity. Qed.

Lemma stars_insert (i : nat) (mask : list N) :
  (starsIn mask <= starsIn (<[i := 1%N]> mask) <= S (starsIn mask))%nat
  /\ ((i < length mask)%nat -> (1 <= starsIn (<[i := 1%N]> mask))%nat)
  /\ (Forall (fun v => v = 0%N \/ v = 1%N) mask ->
      Forall (fun v => v = 0%N \/ v = 1%N) (<[i := 1%N]> mask)).
Proof.
  revert i. induction mask as [|v mask IH]; intros i.
  - simpl. repeat split; auto; lia.
  - destruct i as [|i].
    + change (<[0%nat := 1%N]> (v :: mask)) with (1%N :: mask).
      rewrite !stars_cons. change (N.eqb 1 1) with true.
      repeat split; try (destruct (N.eqb 1 v); lia).
      intros H. inversion H; subst. constructor; auto.
    + change (<[S i := 1%N]> (v :: mask)) with (v :: <[i := 1%N]> mask).
      rewrite !stars_cons. destruct (IH i) as ([H1 H2] & H3 & H4).
      repeat split; try (destruct (N.eqb 1 v); lia).
      * intros Hi. assert (Hi' : (i < length mask)%nat) by (simpl in Hi; lia).
        specialize (H3 Hi'). destruct (N.eqb 1 v); lia.
      * intros H. inversion H; subst. constructor; auto.
      
Qed.

Lemma stars_writeStar (idx : Z) (mask : list N) :
  (starsIn mask <= starsIn (writeStar idx mask) <= S (starsIn mask))%nat
  /\ (0 <= idx < Z.of_nat (length mask) -> (1 <= starsIn (writeStar idx mask))%nat)
  /\ (Forall (fun v => v = 0%N \/ v = 1%N) mask ->
      Forall (fun v => v = 0%N \/ v = 1%N) (writeStar idx mask)).
Proof.
  unfold writeStar. destruct (Z.ltb_spec idx 0) as [Hneg | Hpos].
  - repeat split; auto; try lia.
  - destruct (stars_insert (Z.to_nat idx) mask) as (H1 & H2 & H3).
    split; [exact H1|]. split; [|exact H3].
    intros H. apply H2. lia.
Qed.

Lemma stars_blank (n : nat) :
  starsIn (replicate n 0%N) = 0%nat
  /\ Forall (fun v => v = 0%N \/ v = 1%N) (replicate n 0%N).
Proof.
  unfold starsIn. induction n as [|n [IH1 IH2]]; simpl; split; auto.
Qed.

Lemma stars_le_length (mask : list N) : (starsIn mask <= length mask)%nat.
Proof. apply List.filter_length_le. Qed.

Section Stars.
Variable random : nat -> Q.

Lemma sampleStars_stars count total mask k :
  let mask' := fst (sampleStars random count total mask k) in
  (starsIn mask <= starsIn mask' <= starsIn mask + count)%nat
  /\ (Forall (fun v => v = 0%N \/ v = 1%N) mask ->
      Forall (fun v => v = 0%N \/ v = 1%N) mask').
Proof.
  revert mask k. induction count as [|count IH]; intros mask k;
    cbn [sampleStars fst].
  - split; [lia | auto].
  - set (idx := Qfloor (random k * inject_Z (Z.of_nat total))).
    destruct (IH (writeStar idx mask) (S k)) as [H1 H2].
    destruct (stars_writeStar idx mask) as (H3 & _ & H4).
    simpl in H1, H2. split; [lia | auto].
Qed.

Lemma draw_in_range (r : Q) (total : nat) :
  (0 <= r)%Q -> (r < 1)%Q -> (0 < total)%nat ->
  0 <= Qfloor (r * inject_Z (Z.of_nat total)) < Z.of_nat total.
Proof.
  intros H0 H1 Ht.
  assert (Hpos : (0 < inject_Z (Z.of_nat total))%Q)
    by (change (inject_Z 0 < inject_Z (Z.of_nat total))%Q;
        rewrite <- Zlt_Qlt; lia).
  split.
  - change 0 with (Qfloor 0). apply Qfloor_resp_le.
    apply Qmult_le_0_compat; [exact H0 | apply Qlt_le_weak, Hpos].
  - rewrite Zlt_Qlt.
    apply Qle_lt_trans with (r * inject_Z (Z.of_nat total))%Q;
      [apply Qfloor_le|].
    rewrite <- (Qmult_1_l (inject_Z (Z.of_nat total))) at 2.
    apply Qmult_lt_compat_r; assumption.
Qed.

(** X16. After [regenerateStars] every entry of the mask is 0 or 1 and the
    stars are at most as many as the draws and as the cells (draws may
    collide or repeat); a grid that has a cell gets a star as soon as the
    first number drawn is in [0, 1). *)
Theorem regenerateStars_stars (cols rows : nat) (c : State) :
  let mask := starMask (regenerateStars random cols rows c) in
  let total := (cols * rows)%nat in
  Forall (fun v => v = 0%N \/ v = 1%N) mask
  /\ (starsIn mask <= starCount total)%nat
  /\ (starsIn mask <= total)%nat
  /\ ((0 < total)%nat ->
      (0 <= random (drawn c))%Q -> (random (drawn c) < 1)%Q ->
      (1 <= starsIn mask)%nat).
Proof.
  intros mask total.
  assert (E : mask = fst (sampleStars random (starCount total) total
                            (replicate total 0%N) (drawn c))).
  { unfold mask, regenerateStars. fold total.
    destruct (sampleStars _ _ _ _ _); reflexivity. }
  destruct (stars_blank total) as [Hb1 Hb2].
  destruct (sampleStars_stars (starCount total) total (replicate total 0%N)
              (drawn c)) as [H1 H2].
  simpl in H1, H2. rewrite <- E in H1, H2. rewrite Hb1 in H1.
  split; [auto|]. split; [lia|]. split.
  - pose proof (stars_le_length mask) as Hl.
    destruct (sampleStars_spec random (starCount total) total
                (replicate total 0%N) (drawn c)) as [Hlen _].
    rewrite <- E, length_replicate in Hlen. lia.
  - intros Ht Hr0 Hr1.
    assert (Hc : exists n, starCount total = S n).
    { assert (80 <= starCount total)%nat
        by (unfold starCount;
            generalize (Qfloor (inject_Z (Z.of_nat total) * STAR_DENSITY)); lia).
      exists (pred (starCount total)). lia. }
    destruct Hc as [n Hn]. rewrite Hn in E. cbn [sampleStars] in E.
    set (idx := Qfloor (random (drawn c) * inject_Z (Z.of_nat total))) in E.
    destruct (stars_writeStar idx (replicate total 0%N)) as (_ & Hhit & _).
    rewrite length_replicate in Hhit.
    specialize (Hhit (draw_in_range _ _ Hr0 Hr1 Ht)).
    destruct (sampleStars_stars n total (writeStar idx (replicate total 0%N))
                (S (drawn c))) as [[Hge _] _].
    simpl in Hge. rewrite <- E in Hge. lia.
Qed.

End Stars.

(** ** Ripples *)

(** X17. A section change with a non-empty id appends one ripple, the last
    of the collection afterwards: of strength 0.65, started now, at 0.45
    of the height, and at 0.82 of the width when the side of the content
    is ['left'] or missing, at 0.18 of the width for any other side. *)
Theorem section_change_ripple_origin
    (a : ascii) (rest : string) (sd : option string)
    (clientWidth clientHeight : Z) (now : R) (c : State) :
  let c' :=
    handleSectionChange (Some {| id := Some (String a rest); side := sd |})
                        clientWidth clientHeight now c in
  let originX :=
    match sd with
    | None => (IZR clientWidth * 0.82)%R
    | Some v =>
        if String.eqb v "left"
        then (IZR clientWidth * 0.82)%R else (IZR clientWidth * 0.18)%R
    end in
  activeSection c' = String a rest
  /\ exists older,
       ripples c' = older ++ [rippleAt originX (IZR clientHeight * 0.45) 0.65 now]
       /\ (older = ripples c \/ older = tl (ripples c)).
Proof.
  intros c' originX. unfold c'.
  rewrite handleSectionChange_received.
  split; [apply (pushRipple_fields _ _ _ _ (setActiveSection (String a rest) c))|].
  rewrite pushRipple_ripples.
  change (ripples (setActiveSection (String a rest) c)) with (ripples c).
  assert (E : (if String.eqb
                    (if String.eqb (match sd with Some v => v | None => "left" end)
                                   "left"
                     then "right" else "left") "left"
               then IZR clientWidth * 0.18 else IZR clientWidth * 0.82)%R
              = originX).
  { unfold originX. destruct sd as [v|]; [|reflexivity].
    destruct (String.eqb v "left"); reflexivity. }
  rewrite E.
  destruct (MAX_RIPPLES <=? length (ripples c))%nat; eexists; split; eauto.
Qed.

Lemma tl_skipn {A} (n : nat) (l : list A) : tl (skipn n l) = skipn (S n) l.
Proof.
  revert l. induction n as [|n IH]; intros [|x l]; simpl; auto.
Qed.

Lemma lastn_push (r : Ripple) (l : list Ripple) :
  lastn MAX_RIPPLES (l ++ [r])
  = if (MAX_RIPPLES <=? length (lastn MAX_RIPPLES l))%nat
    then tl (lastn MAX_RIPPLES l) ++ [r]
    else lastn MAX_RIPPLES l ++ [r].
Proof.
  unfold lastn, MAX_RIPPLES. rewrite List.length_skipn, List.length_app.
  change (length [r]) with 1%nat.
  destruct (Nat.leb_spec 6 (length l - (length l - 6))) as [H | H].
  - rewrite tl_skipn, List.skipn_app.
    replace (length l + 1 - 6)%nat with (S (length l - 6)) by lia.
    replace (S (length l - 6) - length l)%nat with 0%nat by lia.
    reflexivity.
  - replace (length l + 1 - 6)%nat with 0%nat by lia.
    replace (length l - 6)%nat with 0%nat by lia. reflexivity.
Qed.

Lemma pushAll_snoc ps p c :
  pushAll (ps ++ [p]) c
  = (let '(originX, originY, strength, now) := p in
     pushRipple originX originY strength now (pushAll ps c)).
Proof. unfold pushAll. rewrite List.fold_left_app. reflexivity. Qed.

(** X18. The collection is a window on the insertions: after any number
    of them it holds, oldest first, the last 6 of what it held followed by
    what was inserted. *)
Theorem ripples_are_the_latest (ps : list (R * R * R * R)) (c : State) :
  (length (ripples c) <= MAX_RIPPLES)%nat ->
  ripples (pushAll ps c)
  = lastn MAX_RIPPLES (ripples c ++ List.map rippleOf ps).
Proof.
  intros Hlen. induction ps as [|p ps IH] using List.rev_ind.
  - simpl. rewrite List.app_nil_r. unfold lastn.
    replace (length (ripples c) - MAX_RIPPLES)%nat with 0%nat by lia.
    reflexivity.
  - rewrite pushAll_snoc, List.map_app, List.app_assoc. simpl.
    destruct p as [[[originX originY] strength] now].
    rewrite pushRipple_ripples, IH. simpl. symmetry. apply lastn_push.
Qed.

(** ** What every reachable state of the canvas satisfies *)

Section Reachable.
Variable random : nat -> Q.

Lemma canvasOk_regenerateStars cols0 rows0 c :
  cell (gridMeta c) = CELL_SIZE ->
  cols (gridMeta c) = cols0 -> rows (gridMeta c) = rows0 ->
  Forall (fun r => (0 <= strength r <= 0.65)%R) (ripples c) ->
  canvasOk (regenerateStars random cols0 rows0 c).
Proof.
  intros Hcell Hc Hr Hs. unfold canvasOk.
  destruct (regenerateStars_fields random cols0 rows0 c) as (-> & -> & _).
  rewrite Hc, Hr.
  assert (E : starMask (regenerateStars random cols0 rows0 c)
              = fst (sampleStars random (starCount (cols0 * rows0)) (cols0 * rows0)
                       (replicate (cols0 * rows0) 0%N) (drawn c))).
  { unfold regenerateStars. destruct (sampleStars _ _ _ _ _); reflexivity. }
  rewrite E.
  destruct (sampleStars_spec random (starCount (cols0 * rows0)) (cols0 * rows0)
              (replicate (cols0 * rows0) 0%N) (drawn c)) as [Hlen _].
  destruct (sampleStars_stars random (starCount (cols0 * rows0)) (cols0 * rows0)
              (replicate (cols0 * rows0) 0%N) (drawn c)) as [_ Hall].
  rewrite Hlen, length_replicate.
  repeat split; auto. apply Hall, stars_blank.
Qed.

Lemma canvasOk_handleResize w h c :
  canvasOk c -> canvasOk (handleResize random w h c).
Proof.
  intros (_ & _ & _ & Hs). unfold handleResize.
  apply canvasOk_regenerateStars; auto.
Qed.

Lemma canvasOk_pushRipple originX originY strength now c :
  (0 <= strength <= 0.65)%R ->
  canvasOk c -> canvasOk (pushRipple originX originY strength now c).
Proof.
  intros Hst (H1 & H2 & H3 & H4). unfold canvasOk.
  destruct (pushRipple_fields originX originY strength now c) as (_ & -> & ->).
  rewrite pushRipple_ripples.
  repeat split; auto.
  destruct (MAX_RIPPLES <=? length (ripples c))%nat;
    apply List.Forall_app; split; auto; try (repeat constructor; simpl; lra).
  destruct (ripples c); simpl; [constructor | inversion H4; assumption].
Qed.

Lemma canvasOk_step c i : canvasOk c -> canvasOk (step random c i).
Proof.
  intros H. destruct i; simpl.
  - apply canvasOk_handleResize, H.
  - destruct detail as [[[[|a rest]|] sd]|]; try exact H.
    rewrite handleSectionChange_received.
    apply canvasOk_pushRipple; [lra | exact H].
  - exact H.
Qed.

Lemma canvasOk_run inputs c : canvasOk c -> canvasOk (run random c inputs).
Proof.
  revert c. induction inputs as [|i inputs IH]; intros c H; simpl; auto.
  apply IH, canvasOk_step, H.
Qed.

Lemma canvasOk_mount hasCanvas hasContext iw ih cw ch now c :
  mount random hasCanvas hasContext iw ih cw ch now = Some c -> canvasOk c.
Proof.
  unfold mount. destruct hasCanvas, hasContext; simpl; try discriminate.
  intros [= <-]. apply canvasOk_pushRipple; [lra|].
  apply (canvasOk_handleResize iw ih initialState).
  unfold canvasOk; simpl. repeat split; constructor.
Qed.

(** X19. In every state the mounted component reaches, the star mask has
    exactly one entry, 0 or 1, for each cell of the grid, whose cells are
    18 pixels wide: the star test of a frame reads a real entry at every
    cell it paints. *)
Theorem mask_covers_grid
    (hasCanvas hasContext : bool) (innerWidth innerHeight : nat)
    (clientWidth clientHeight : Z) (now0 : R) (c0 : State)
    (inputs : list Input) :
  mount random hasCanvas hasContext innerWidth innerHeight
        clientWidth clientHeight now0 = Some c0 ->
  let c := run random c0 inputs in
  cell (gridMeta c) = CELL_SIZE
  /\ length (starMask c) = (cols (gridMeta c) * rows (gridMeta c))%nat
  /\ forall row col,
       (row < rows (gridMeta c))%nat -> (col < cols (gridMeta c))%nat ->
       exists v, starMask c !! (row * cols (gridMeta c) + col)%nat = Some v
                 /\ (v = 0%N \/ v = 1%N)
                 /\ isStarAt c row col = N.eqb v 1.
Proof.
  intros Hm c.
  destruct (canvasOk_run inputs c0 (canvasOk_mount _ _ _ _ _ _ _ _ Hm))
    as (Hlen & Hcell & Hall & _).
  fold c in Hlen, Hcell, Hall.
  split; [exact Hcell|]. split; [exact Hlen|].
  intros row col Hrow Hcol.
  assert (Hidx : (row * cols (gridMeta c) + col < length (starMask c))%nat)
    by (rewrite Hlen; nia).
  destruct (lookup_lt_is_Some_2 _ _ Hidx) as [v Hv].
  exists v. split; [exact Hv|].
  assert (H01 : v = 0%N \/ v = 1%N).
  { rewrite List.Forall_forall in Hall. apply Hall.
    apply list_elem_of_In, list_elem_of_lookup. eauto. }
  split; [exact H01|].
  unfold isStarAt. rewrite Hv. destruct H01 as [-> | ->]; reflexivity.
Qed.

Lemma exp_le_one (v : R) : (v <= 0)%R -> (0 < exp v <= 1)%R.
Proof.
  intros H. split; [apply exp_pos|].
  destruct (Rle_lt_or_eq_dec v 0 H) as [Hlt | ->].
  - left. rewrite <- exp_0. apply exp_increasing, Hlt.
  - rewrite exp_0. lra.
Qed.

Lemma rippleTerm_bound (timestamp px py cell : R) (r : Ripple) :
  duration r = 2.6%R -> (0 <= strength r <= 0.65)%R ->
  (start r <= timestamp)%R ->
  (- 0.13 <= rippleTerm timestamp px py cell r <= 0.13)%R.
Proof.
  intros Hd Hs Hstart. unfold rippleTerm, attenuation, wave, temporalDecay.
  rewrite Hd.
  set (age := ((timestamp - start r) / 1000)%R).
  set (dist := sqrt _).
  assert (Hage : (0 <= age)%R) by (unfold age; lra).
  assert (Hdist : (0 <= dist)%R) by apply sqrt_pos.
  pose proof (SIN_bound (dist * 0.015 - age * speed r * 0.6)) as Hw.
  assert (He : (0 < exp (- dist * 0.001) <= 1)%R) by (apply exp_le_one; lra).
  assert (Ht : (0 <= Rmax 0 (1 - age / 2.6) <= 1)%R).
  { split; [apply Rmax_l|]. apply Rmax_lub; lra. }
  revert Hw He Ht Hs.
  generalize (sin (dist * 0.015 - age * speed r * 0.6))
             (exp (- dist * 0.001)) (Rmax 0 (1 - age / 2.6)) (strength r).
  intros w e a s Hw He Ha Hs.
  assert (Hae : (0 <= a * e <= 1)%R) by (split; nra).
  revert Hae. generalize (a * e)%R. intros ae Hae.
  assert (Hm : (0 <= ae * s <= 0.65)%R) by (split; nra).
  replace (w * ae * s * 0.2)%R with (w * (ae * s) * 0.2)%R by ring.
  revert Hm. generalize (ae * s)%R. intros m Hm. split; nra.
Qed.

Lemma addRipples_bound (timestamp px py cell : R) (rs : list Ripple) (value : R) :
  Forall (fun r => duration r = 2.6%R) rs ->
  Forall (fun r => (0 <= strength r <= 0.65)%R) rs ->
  (forall r, In r rs -> (start r <= timestamp)%R) ->
  (- (0.13 * INR (length rs))
   <= addRipples timestamp px py cell rs value - value
   <= 0.13 * INR (length rs))%R.
Proof.
  intros Hd Hs Hstart. unfold addRipples.
  rewrite <- (List.length_rev rs).
  assert (Hall : forall r, In r (rev rs) ->
                           (- 0.13 <= rippleTerm timestamp px py cell r <= 0.13)%R).
  { intros r Hr. apply List.in_rev in Hr.
    rewrite List.Forall_forall in Hd, Hs.
    apply rippleTerm_bound; auto. }
  clear Hd Hs Hstart. revert value Hall.
  induction (rev rs) as [|r l IH]; intros value Hall.
  - simpl. lra.
  - cbn [fold_left]. change (length (r :: l)) with (S (length l)). rewrite S_INR.
    specialize (IH (value + rippleTerm timestamp px py cell r)%R).
    assert (H1 := Hall r (or_introl eq_refl)).
    assert (H2 : forall r0, In r0 l ->
                   (- 0.13 <= rippleTerm timestamp px py cell r0 <= 0.13)%R)
      by (intros r0 Hr0; apply Hall; right; exact Hr0).
    specialize (IH H2). revert IH.
    generalize (fold_left
                  (fun v ripple => (v + rippleTerm timestamp px py cell ripple)%R)
                  l (value + rippleTerm timestamp px py cell r)%R).
    intros total IH. lra.
Qed.

(** X20. The ripples move the value of a cell by 0.78 at most: in every
    state the mounted component reaches, at a frame that is not older than
    any ripple, the composited value differs from the value before the
    ripple loop by at most 6 times 0.13. *)
Theorem ripples_perturbation_bounded
    (hasCanvas hasContext : bool) (innerWidth innerHeight : nat)
    (clientWidth clientHeight : Z) (now0 : R) (c0 : State)
    (inputs : list Input) (timestamp px py cell value : R) :
  mount random hasCanvas hasContext innerWidth innerHeight
        clientWidth clientHeight now0 = Some c0 ->
  let c := run random c0 inputs in
  (forall r, In r (ripples c) -> (start r <= timestamp)%R) ->
  (Rabs (addRipples timestamp px py cell (ripples c) value - value) <= 0.78)%R.
Proof.
  intros Hm c Hstart.
  destruct (canvasOk_run inputs c0 (canvasOk_mount _ _ _ _ _ _ _ _ Hm))
    as (_ & _ & _ & Hs).
  destruct (ripplesOk_run random inputs c0 (ripplesOk_mount random _ _ _ _ _ _ _ _ Hm))
    as [Hlen Hd].
  fold c in Hs, Hlen, Hd.
  pose proof (addRipples_bound timestamp px py cell (ripples c) value Hd Hs Hstart)
    as Hb.
  assert (Hn : (INR (length (ripples c)) <= 6)%R).
  { replace 6%R with (INR MAX_RIPPLES) by (simpl; lra). apply le_INR, Hlen. }
  apply Rabs_le. lra.
Qed.

End Reachable.

(** ** On the small canvas *)



Lemma regenerateStars_stars_witness :
  (1 <= starsIn (starMask (regenerateStars dice 2 2 initialState)))%nat.
Proof.
  destruct (regenerateStars_stars dice 2 2 initialState) as (_ & _ & _ & H).
  apply H.
  - simpl. lia.
  - unfold Qle. simpl. lia.
  - unfold Qlt. simpl. lia.
Defined.

Lemma ripples_are_the_latest_witness :
  ripples (pushAll [(1, 2, 0.65, 10); (3, 4, 0.65, 20)]%R started)
  = lastn MAX_RIPPLES
      (ripples started
       ++ [rippleAt 1 2 0.65 10; rippleAt 3 4 0.65 20]).
Proof.
  apply (ripples_are_the_latest [(1, 2, 0.65, 10); (3, 4, 0.65, 20)]%R started).
  rewrite (proj1 started_fields). unfold MAX_RIPPLES. simpl. lia.
Defined.

Lemma mask_covers_grid_witness :
  exists v, starMask started !! (1 * cols (gridMeta started) + 1)%nat = Some v
            /\ (v = 0%N \/ v = 1%N)
            /\ isStarAt started 1 1 = N.eqb v 1.
Proof.
  destruct (mask_covers_grid dice true true 36 36 36 36 0 started [] eq_refl)
    as (_ & _ & H).
  apply (H 1%nat 1%nat); vm_compute; lia.
Defined.

Lemma ripples_perturbation_bounded_witness :
  (Rabs (addRipples 5000 0 0 18 (ripples started) 1 - 1) <= 0.78)%R.
Proof.
  apply (ripples_perturbation_bounded dice true true 36 36 36 36 0 started []
           5000 0 0 18 1 eq_refl).
  change (run dice started []) with started.
  rewrite (proj1 started_fields).
  intros r [<- | []]. simpl. lra.
Defined.

End CanvasMore.
